(** * DIB [utils.py]: mutual-information bounds, similarities and Gaussian divergences

    A shallow embedding of [src/utils.py].

    Numbers.  The program computes on IEEE binary64 / binary32 arrays.  They
    are modelled by [float64]: a finite value carries a real number, and the
    three exceptional values [+inf], [-inf] and [nan] are explicit.  Arithmetic
    on finite values is exact (no rounding, no overflow, no underflow); division
    by zero, the logarithm of zero or of a negative number, the square root of a
    negative number and every operation on an exceptional value follow IEEE 754.
    Zero is unsigned and behaves as [+0].

    What a statement on [float64] says.  An equation between a result and a
    real formula says which expression the program evaluates; the computed
    number is the floating-point value of that expression, and a bound on the
    formula holds for the computed number up to rounding.  The order between
    the two estimates of [compute_batch] is proved for arbitrary values of the
    arrays, infinities and [nan]s included, and from order properties alone:
    every operation involved is monotone, as its correctly rounded counterpart
    is.  Where rounding itself is the subject - the cancellation in
    [pairwise_l2_distance] - the arithmetic of the function is run on Rocq's
    primitive binary64 numbers ([Binary64]).

    Arrays.  A rank-2 array is a record with its shape and its rows; tensors of
    higher rank that exist only inside a function are nested lists.

    Errors.  A Python exception is a [Raise] result. *)

From Stdlib Require Import Reals Lra Lia List Arith PeanoNat Bool.
From Stdlib Require Import Permutation.
From Stdlib Require String.
From Stdlib Require PrimFloat Uint63.
Import String.StringSyntax.
Import ListNotations.

Local Open Scope R_scope.

(* ================================================================= *)
(** ** Floating-point values *)

Inductive float64 : Type :=
| Fin (r : R)
| PInf
| NInf
| NaN.

(** Sign of a real number: [Gt] for positive, [Eq] for zero, [Lt] for negative. *)
Definition Rsign (x : R) : comparison :=
  match total_order_T 0 x with
  | inleft (left _) => Gt
  | inleft (right _) => Eq
  | inright _ => Lt
  end.

(** The infinity of a given sign; the sign of zero gives [nan]. *)
Definition inf_of (c : comparison) : float64 :=
  match c with
  | Gt => PInf
  | Lt => NInf
  | Eq => NaN
  end.

Definition fneg (x : float64) : float64 :=
  match x with
  | Fin a => Fin (- a)
  | PInf => NInf
  | NInf => PInf
  | NaN => NaN
  end.

Definition fadd (x y : float64) : float64 :=
  match x, y with
  | NaN, _ | _, NaN => NaN
  | Fin a, Fin b => Fin (a + b)
  | PInf, NInf | NInf, PInf => NaN
  | PInf, _ | _, PInf => PInf
  | NInf, _ | _, NInf => NInf
  end.

Definition fsub (x y : float64) : float64 := fadd x (fneg y).

Definition fmul (x y : float64) : float64 :=
  match x, y with
  | NaN, _ | _, NaN => NaN
  | Fin a, Fin b => Fin (a * b)
  | Fin a, PInf | PInf, Fin a => inf_of (Rsign a)
  | Fin a, NInf | NInf, Fin a => inf_of (CompOpp (Rsign a))
  | PInf, PInf | NInf, NInf => PInf
  | PInf, NInf | NInf, PInf => NInf
  end.

Definition fdiv (x y : float64) : float64 :=
  match x, y with
  | NaN, _ | _, NaN => NaN
  | Fin a, Fin b =>
      match Rsign b with
      | Eq => inf_of (Rsign a)
      | _ => Fin (a / b)
      end
  | Fin _, _ => Fin 0
  | PInf, Fin b => match Rsign b with Lt => NInf | _ => PInf end
  | NInf, Fin b => match Rsign b with Lt => PInf | _ => NInf end
  | _, _ => NaN
  end.

Definition fexp (x : float64) : float64 :=
  match x with
  | Fin a => Fin (exp a)
  | PInf => PInf
  | NInf => Fin 0
  | NaN => NaN
  end.

Definition flog (x : float64) : float64 :=
  match x with
  | Fin a =>
      match Rsign a with
      | Gt => Fin (ln a)
      | Eq => NInf
      | Lt => NaN
      end
  | PInf => PInf
  | _ => NaN
  end.

Definition fsqrt (x : float64) : float64 :=
  match x with
  | Fin a => match Rsign a with Lt => NaN | _ => Fin (sqrt a) end
  | PInf => PInf
  | _ => NaN
  end.

Definition fabs (x : float64) : float64 :=
  match x with
  | Fin a => Fin (Rabs a)
  | PInf | NInf => PInf
  | NaN => NaN
  end.

(** [tf.maximum] and [tf.reduce_max]: the larger value, [nan] if either is. *)
Definition fmax (x y : float64) : float64 :=
  match x, y with
  | NaN, _ | _, NaN => NaN
  | PInf, _ | _, PInf => PInf
  | NInf, z | z, NInf => z
  | Fin a, Fin b => Fin (Rmax a b)
  end.

(** [x ** y].  The program raises only the constant [2*pi] to a finite power;
    the other cases are not reached and are given as [nan]. *)
Definition fpow (x y : float64) : float64 :=
  match x, y with
  | Fin a, Fin b => match Rsign a with Gt => Fin (Rpower a b) | _ => NaN end
  | _, _ => NaN
  end.

(** IEEE [x <= y]: false as soon as one side is [nan]. *)
Definition fleb (x y : float64) : bool :=
  match x, y with
  | NaN, _ | _, NaN => false
  | NInf, _ | _, PInf => true
  | Fin a, Fin b => if Rle_dec a b then true else false
  | _, _ => false
  end.

(** A Python int or a tensor dimension used as a float. *)
Definition of_nat (n : nat) : float64 := Fin (INR n).

(* ================================================================= *)
(** ** Lists as array axes *)

Section Axes.
Context {A B C : Type}.

Fixpoint zip_with (f : A -> B -> C) (xs : list A) (ys : list B) : list C :=
  match xs, ys with
  | x :: xs', y :: ys' => f x y :: zip_with f xs' ys'
  | _, _ => []
  end.

(** One axis of a broadcasting binary operation: an axis of length one is
    stretched to the length of the other one. *)
Definition bcast (f : A -> B -> C) (xs : list A) (ys : list B) : list C :=
  match xs, ys with
  | [x], _ => map (f x) ys
  | _, [y] => map (fun x => f x y) xs
  | _, _ => zip_with f xs ys
  end.
End Axes.

(** Sums, inner products, diagonal matrices and matrix products, over any
    carrier: the program's arrays use them on [float64], the statements about
    them on [R]. *)
Section Linear.
Context {T : Type} (zero : T) (add mul : T -> T -> T).

Definition gsum (xs : list T) : T := fold_right add zero xs.

Definition gdot (xs ys : list T) : T := gsum (zip_with mul xs ys).

(** [np.diag(v)]: the square matrix with [v] on its diagonal. *)
Fixpoint gdiag (v : list T) : list (list T) :=
  match v with
  | [] => []
  | x :: v' => (x :: repeat zero (length v')) :: map (cons zero) (gdiag v')
  end.

(** The columns of a matrix with [c] columns, i.e. its transpose. *)
Definition columns (c : nat) (b : list (list T)) : list (list T) :=
  map (fun j => map (fun r => nth j r zero) b) (seq 0 c).

(** [a @ b] for a matrix [b] with [c] columns. *)
Definition gmatmul (c : nat) (a b : list (list T)) : list (list T) :=
  map (fun r => map (gdot r) (columns c b)) a.
End Linear.

(** [tf.reduce_sum] / [np.sum] over one axis. *)
Definition fsum : list float64 -> float64 := gsum (Fin 0) fadd.
Definition Rsum : list R -> R := gsum 0 Rplus.

(** Inner product of two rows. *)
Definition fdot : list float64 -> list float64 -> float64 := gdot (Fin 0) fadd fmul.
Definition Rdot : list R -> list R -> R := gdot 0 Rplus Rmult.

(** [tf.reduce_mean] / [np.mean] over one axis: the sum divided by the number
    of entries. *)
Definition fmean (xs : list float64) : float64 :=
  fdiv (fsum xs) (of_nat (length xs)).

(** [tf.reduce_max] over one axis. *)
Definition freduce_max (xs : list float64) : float64 := fold_right fmax NInf xs.

(** [np.prod] over one axis. *)
Definition fprod (xs : list float64) : float64 := fold_right fmul (Fin 1) xs.
Definition Rprod (xs : list R) : R := fold_right Rmult 1 xs.

(** Broadcasting binary operations on tensors of rank 2 and 3. *)
Definition ew2 (f : float64 -> float64 -> float64) := bcast (bcast f).
Definition ew3 (f : float64 -> float64 -> float64) := bcast (bcast (bcast f)).

(** [np.tile(a[:, np.newaxis], [1, m, 1])] : from [n, d] to [n, m, d]. *)
Definition tile_axis1 {T : Type} (m : nat) (a : list (list T)) : list (list (list T)) :=
  map (fun r => repeat r m) a.

(** [np.tile(a[np.newaxis], [n, 1, 1])] : from [m, d] to [n, m, d]. *)
Definition tile_axis0 {T : Type} (n : nat) (a : list (list T)) : list (list (list T)) :=
  repeat a n.

(** Row-major regrouping of a flat sequence into [n] rows of [m] entries. *)
Fixpoint chunks {T : Type} (n m : nat) (l : list T) : list (list T) :=
  match n with
  | O => []
  | S n' => firstn m l :: chunks n' m (skipn m l)
  end.

(** [t.reshape([n, m])] for a tensor [t] of rank 4. *)
Definition reshape_4_2 {T : Type} (n m : nat) (t : list (list (list (list T)))) :
  list (list T) :=
  chunks n m (concat (concat (concat t))).

(** The table [[g i j | j < m] | i < n]. *)
Definition tab {T : Type} (n m : nat) (g : nat -> nat -> T) : list (list T) :=
  map (fun i => map (fun j => g i j) (seq 0 m)) (seq 0 n).

(** [tf.eye(n)]. *)
Definition eye (n : nat) : list (list float64) :=
  tab n n (fun i j => if Nat.eqb i j then Fin 1 else Fin 0).

(** [tf.linalg.diag_part] of a square matrix. *)
Definition diag_part (p : list (list float64)) : list float64 :=
  map (fun i => nth i (nth i p []) NaN) (seq 0 (length p)).

(* ================================================================= *)
(** ** Arrays and errors *)

Record array : Type := mk_array {
  shape0 : nat;
  shape1 : nat;
  data : list (list float64)
}.

Definition is_shape {T : Type} (n d : nat) (rows : list (list T)) : Prop :=
  length rows = n /\ Forall (fun r => length r = d) rows.

Definition wf_array (a : array) : Prop := is_shape (shape0 a) (shape1 a) (data a).

(** The array of shape [n, d] holding the finite values [rows]. *)
Definition of_reals (n d : nat) (rows : list (list R)) : array :=
  mk_array n d (map (map Fin) rows).

Definition entry (a : array) (i j : nat) : float64 := nth j (nth i (data a) []) NaN.

(** Exceptions.  [TensorFlowError] stands for the error a TensorFlow operation
    raises when it refuses its arguments: operands of incompatible shapes, a
    batch size of zero. *)
Inductive exn : Type :=
| AssertionError
| ValueError (args : list String.string)
| TensorFlowError.

Inductive result (T : Type) : Type :=
| Ok (v : T)
| Raise (e : exn).
Arguments Ok {T} v.
Arguments Raise {T} e.

Definition bind {S T : Type} (r : result S) (k : S -> result T) : result T :=
  match r with
  | Ok v => k v
  | Raise e => Raise e
  end.

Notation "x <- r ;; k" := (bind r (fun x => k))
  (at level 61, r at next level, right associativity).

(* ================================================================= *)
(** ** Pairwise distances *)

(** [tf.matmul(a, b, transpose_b=True)] on the rows of [a] and [b]. *)
Definition matmul_transpose_b (a b : list (list float64)) : list (list float64) :=
  map (fun r1 => map (fun r2 => fdot r1 r2) b) a.

(** [pairwise_l2_distance(pts1, pts2)]. *)
Definition pairwise_l2_distance (pts1 pts2 : array) : result array :=
  (* norm1 = tf.reduce_sum(tf.square(pts1), axis=-1, keepdims=True) : [N, 1] *)
  let norm1 := map (fun r => [fsum (map (fun x => fmul x x) r)]) (data pts1) in
  (* norm2 = tf.reduce_sum(tf.square(pts2), axis=-1) : [M] *)
  let norm2 := map (fun r => fsum (map (fun x => fmul x x) r)) (data pts2) in
  (* norm2 = tf.expand_dims(norm2, -2) : [1, M] *)
  let norm2 := [norm2] in
  (* tf.matmul refuses operands whose inner dimensions differ *)
  if Nat.eqb (shape1 pts1) (shape1 pts2) then
    let prod := matmul_transpose_b (data pts1) (data pts2) in
    let twice := map (map (fmul (Fin 2))) prod in
    let expansion := ew2 fsub (ew2 fadd norm1 norm2) twice in
    Ok (mk_array (shape0 pts1) (shape0 pts2)
          (map (map (fun x => fmax x (Fin 0))) expansion))
  else Raise TensorFlowError.

(** Two axis lengths broadcast together when they are equal or one of them
    is one. *)
Definition broadcastable (d1 d2 : nat) : bool :=
  Nat.eqb d1 d2 || Nat.eqb d1 1 || Nat.eqb d2 1.

(** [pairwise_l1_distance(pts1, pts2)]. *)
Definition pairwise_l1_distance (pts1 pts2 : array) : result array :=
  let stack_size2 := shape0 pts2 in
  (* pts1_tiled = tf.tile(tf.expand_dims(pts1, 1), [1, stack_size2, 1]) *)
  let pts1_tiled := tile_axis1 stack_size2 (data pts1) in
  if broadcastable (shape1 pts1) (shape1 pts2) then
    (* pts1_tiled - pts2 : [N, M, d] against [M, d], read as [1, M, d] *)
    let difference := ew3 fsub pts1_tiled [data pts2] in
    Ok (mk_array (shape0 pts1) (shape0 pts2)
          (map (map (fun r => fsum (map fabs r))) difference))
  else Raise TensorFlowError.

(** [pairwise_linf_distance(pts1, pts2)]. *)
Definition pairwise_linf_distance (pts1 pts2 : array) : result array :=
  let stack_size2 := shape0 pts2 in
  let pts1_tiled := tile_axis1 stack_size2 (data pts1) in
  if broadcastable (shape1 pts1) (shape1 pts2) then
    let difference := ew3 fsub pts1_tiled [data pts2] in
    Ok (mk_array (shape0 pts1) (shape0 pts2)
          (map (map (fun r => freduce_max (map fabs r))) difference))
  else Raise TensorFlowError.

(* ================================================================= *)
(** ** The squared-distance kernel in binary64

    [l2_expansion] and [l2_clamped] are the arithmetic of
    [pairwise_l2_distance] - the two squared norms, the matrix product, the
    expansion and the clamp - with the carrier and its operations as
    parameters.  On [float64] they are the body of [pairwise_l2_distance]
    (lemma [pairwise_l2_distance_kernel]); on Rocq's primitive binary64 numbers
    they evaluate the program with the rounding of every operation. *)

Section L2Kernel.
Context {T : Type} (zero two : T) (add sub mul max : T -> T -> T).

Definition l2_expansion (pts1 pts2 : list (list T)) : list (list T) :=
  let norm1 := map (fun r => [gsum zero add (map (fun x => mul x x) r)]) pts1 in
  let norm2 := map (fun r => gsum zero add (map (fun x => mul x x) r)) pts2 in
  let norm2 := [norm2] in
  let prod := map (fun r1 => map (fun r2 => gdot zero add mul r1 r2) pts2) pts1 in
  let twice := map (map (mul two)) prod in
  bcast (bcast sub) (bcast (bcast add) norm1 norm2) twice.

Definition l2_clamped (pts1 pts2 : list (list T)) : list (list T) :=
  map (map (fun x => max x zero)) (l2_expansion pts1 pts2).
End L2Kernel.

(** IEEE binary64, with round-to-nearest-even on every operation. *)
Module Binary64.

Definition float : Set := PrimFloat.float.


(** [tf.maximum]: the larger value, [nan] if either is. *)
Definition fmax (x y : float) : float :=
  if (PrimFloat.is_nan x || PrimFloat.is_nan y)%bool then PrimFloat.nan
  else if PrimFloat.ltb x y then y else x.

(** The expansion [|a|^2 + |b|^2 - 2 a.b] of [pairwise_l2_distance] on the rows
    of two point sets of one embedding dimension, before and after the clamp. *)
Definition l2_expansion : list (list float) -> list (list float) -> list (list float) :=
  @l2_expansion float PrimFloat.zero PrimFloat.two PrimFloat.add PrimFloat.sub
    PrimFloat.mul.

Definition pairwise_l2_distance :
  list (list float) -> list (list float) -> list (list float) :=
  @l2_clamped float PrimFloat.zero PrimFloat.two PrimFloat.add PrimFloat.sub
    PrimFloat.mul fmax.

(** The squared distance summed coordinate by coordinate, for comparison. *)
Definition sq_dist (a b : list float) : float :=
  gsum PrimFloat.zero PrimFloat.add
    (zip_with (fun x y => PrimFloat.mul (PrimFloat.sub x y) (PrimFloat.sub x y)) a b).


End Binary64.

(* ================================================================= *)
(** ** Similarities *)

(** [scalar * a] and [a / scalar] on every entry. *)
Definition scale (c : float64) (a : array) : array :=
  mk_array (shape0 a) (shape1 a) (map (map (fmul c)) (data a)).

Definition divide_by (a : array) (c : float64) : array :=
  mk_array (shape0 a) (shape1 a) (map (map (fun x => fdiv x c)) (data a)).

(** [tf.linalg.normalize(a, ord=2, axis=-1)[0]], as TensorFlow defines it:
    [norm = tf.sqrt(tf.reduce_sum(a * a, axis, keepdims=True))], then
    [a / norm]. *)
Definition linalg_normalize (a : array) : array :=
  let norm := map (fun r => [fsqrt (fsum (map (fun x => fmul x x) r))]) (data a) in
  mk_array (shape0 a) (shape1 a) (ew2 fdiv (data a) norm).

Definition eps : float64 := Fin 1e-9.

Local Open Scope string_scope.

(** [get_scaled_similarity(embeddings1, embeddings2, similarity_type, temperature)]. *)
Definition get_scaled_similarity (embeddings1 embeddings2 : array)
    (similarity_type : String.string) (temperature : float64) : result array :=
  similarity <-
    (if String.eqb similarity_type "l2sq" then
       d <- pairwise_l2_distance embeddings1 embeddings2 ;;
       Ok (scale (Fin (-1)) d)
     else if String.eqb similarity_type "l2" then
       d <- pairwise_l2_distance embeddings1 embeddings2 ;;
       Ok (scale (Fin (-1))
             (mk_array (shape0 d) (shape1 d)
                (map (map (fun x => fsqrt (fadd x eps))) (data d))))
     else if String.eqb similarity_type "l1" then
       d <- pairwise_l1_distance embeddings1 embeddings2 ;;
       Ok (scale (Fin (-1)) d)
     else if String.eqb similarity_type "linf" then
       d <- pairwise_linf_distance embeddings1 embeddings2 ;;
       Ok (scale (Fin (-1)) d)
     else if String.eqb similarity_type "cosine" then
       let embeddings1 := linalg_normalize embeddings1 in
       let embeddings2 := linalg_normalize embeddings2 in
       if Nat.eqb (shape1 embeddings1) (shape1 embeddings2) then
         Ok (mk_array (shape0 embeddings1) (shape0 embeddings2)
               (matmul_transpose_b (data embeddings1) (data embeddings2)))
       else Raise TensorFlowError
     else
       Raise (ValueError ["Similarity type not implemented: "; similarity_type])) ;;
  (* similarity /= temperature *)
  Ok (divide_by similarity temperature).

Definition apply_along_axis_message : String.string :=
  "Cannot apply_along_axis when any iteration dimensions are 0".

Definition stack_message : String.string := "need at least one array to stack".

Local Close Scope string_scope.

(* ================================================================= *)
(** ** Divergences between batches of diagonal Gaussians

    The four arrays of a call are the means and the log-variances of two
    Gaussian batches: [logvars1] has the shape of [mus1] and [logvars2] the
    shape of [mus2].  What numpy does when that fails is not modelled. *)

(** [np.apply_along_axis(np.diag, -1, t)] for [t] of shape [n, m, d].  numpy
    refuses an empty iteration space. *)
Definition apply_along_axis_diag (n m : nat) (t : list (list (list float64))) :
  result (list (list (list (list float64)))) :=
  if Nat.eqb (n * m) 0 then
    Raise (ValueError [apply_along_axis_message])
  else Ok (map (map (gdiag (Fin 0))) t).

(** [a @ b] on two stacks of shape [n, m, _, _]; the matrices of [b] have [c]
    columns. *)
Definition stack_matmul (c : nat) (a b : list (list (list (list float64)))) :
  list (list (list (list float64))) :=
  bcast (bcast (gmatmul (Fin 0) fadd fmul c)) a b.

(** [bhattacharyya_dist_mat(mus1, logvars1, mus2, logvars2)]. *)
Definition bhattacharyya_dist_mat (mus1 logvars1 mus2 logvars2 : array) : result array :=
  let N := shape0 mus1 in
  let M := shape0 mus2 in
  let embedding_dimension := shape1 mus1 in
  (* assert (mus2.shape[1] == embedding_dimension) *)
  if negb (Nat.eqb (shape1 mus2) embedding_dimension) then Raise AssertionError else
  let mus1 := tile_axis1 M (data mus1) in
  let logvars1 := tile_axis1 M (data logvars1) in
  let mus2 := tile_axis0 N (data mus2) in
  let logvars2 := tile_axis0 N (data logvars2) in
  let difference_mus := ew3 fsub mus1 mus2 in
  (* difference_mus[..., np.newaxis] : [N, M, d, 1] *)
  let difference_mus := map (map (map (fun x => [x]))) difference_mus in
  (* np.transpose(difference_mus, [0, 1, 3, 2]) : [N, M, 1, d] *)
  let difference_mus_T := map (map (columns (Fin 0) 1)) difference_mus in
  let sigma_diag :=
    map (map (map (fmul (Fin 0.5))))
      (ew3 fadd (map (map (map fexp)) logvars1) (map (map (map fexp)) logvars2)) in
  sigma_mat <- apply_along_axis_diag N M sigma_diag ;;
  sigma_mat_inv <-
    apply_along_axis_diag N M (map (map (map (fdiv (Fin 1)))) sigma_diag) ;;
  let determinant_sigma := map (map fprod) sigma_diag in
  let determinant_sigma1 := map (map (fun r => fexp (fsum r))) logvars1 in
  let determinant_sigma2 := map (map (fun r => fexp (fsum r))) logvars2 in
  let term1 :=
    map (map (fmul (Fin 0.125)))
      (reshape_4_2 N M
         (stack_matmul 1
            (stack_matmul embedding_dimension difference_mus_T sigma_mat_inv)
            difference_mus)) in
  let term2 :=
    map (map (fmul (Fin 0.5)))
      (map (map flog)
         (ew2 fdiv determinant_sigma
            (map (map fsqrt) (ew2 fmul determinant_sigma1 determinant_sigma2)))) in
  Ok (mk_array N M (ew2 fadd term1 term2)).

(** [kl_divergence_mat(mus1, logvars1, mus2, logvars2)]. *)
Definition kl_divergence_mat (mus1 logvars1 mus2 logvars2 : array) : result array :=
  let N := shape0 mus1 in
  let M := shape0 mus2 in
  let embedding_dimension := shape1 mus1 in
  (* assert (mus2.shape[1] == embedding_dimension) *)
  if negb (Nat.eqb (shape1 mus2) embedding_dimension) then Raise AssertionError else
  let mus1 := tile_axis1 M (data mus1) in
  let logvars1 := tile_axis1 M (data logvars1) in
  let mus2 := tile_axis0 N (data mus2) in
  let logvars2 := tile_axis0 N (data logvars2) in
  let difference_mus := ew3 fsub mus2 mus1 in
  let difference_mus := map (map (map (fun x => [x]))) difference_mus in
  let difference_mus_T := map (map (columns (Fin 0) 1)) difference_mus in
  let sigma1_diag := map (map (map fexp)) logvars1 in
  let sigma2_diag := map (map (map fexp)) logvars2 in
  let sigma2_inv_diag := map (map (map (fun x => fexp (fneg x)))) logvars2 in
  sigma2_mat_inv <-
    apply_along_axis_diag N M (map (map (map (fdiv (Fin 1)))) sigma2_diag) ;;
  let term1 := map (map fsum) (ew3 fmul sigma2_inv_diag sigma1_diag) in
  let term2 :=
    reshape_4_2 N M
      (stack_matmul 1
         (stack_matmul embedding_dimension difference_mus_T sigma2_mat_inv)
         difference_mus) in
  let log_determinant_sigma1 := map (map fsum) logvars1 in
  let log_determinant_sigma2 := map (map fsum) logvars2 in
  let kl_mat :=
    map (map (fun x => fsub x (of_nat embedding_dimension)))
      (ew2 fsub log_determinant_sigma2 log_determinant_sigma1) in
  let kl_mat := ew2 fadd kl_mat term1 in
  let kl_mat := ew2 fadd kl_mat term2 in
  let kl_mat := map (map (fun x => fmul x (Fin 0.5))) kl_mat in
  Ok (mk_array N M kl_mat).

(* ================================================================= *)
(** ** Sandwich bounds on the mutual information

    The encoder, the data pipeline and the random number generator are outside
    the program.  What they hand to one evaluation batch is a [batch]: the
    means and log-variances the encoder returned for the batch (after the split
    and the cast to float64) and the points drawn by [tf.random.normal].  The
    three arrays have shape [eval_batch_size, embedding_dimension]. *)

Record batch : Type := mk_batch {
  enc_mus : array;
  enc_logvars : array;
  sampled_u : array
}.

(** The matrix [p_ui_cond_xj], as it stands after the division by the
    normalization factor. *)
Definition p_ui_cond_xj (b : batch) : list (list float64) :=
  let mus := data (enc_mus b) in
  let logvars := data (enc_logvars b) in
  let embedding_dimension := shape1 (enc_mus b) in
  let stddevs := map (map (fun x => fexp (fdiv x (Fin 2)))) logvars in
  (* tf.reshape(sampled_u_values, [eval_batch_size, 1, embedding_dimension]) *)
  let sampled_u_values := map (fun r => [r]) (data (sampled_u b)) in
  (* tf.reshape(mus, [1, eval_batch_size, embedding_dimension]) *)
  let mus := [mus] in
  let distances_ui_muj := ew3 fsub sampled_u_values mus in
  let normalized_distances_ui_muj := ew3 fdiv distances_ui_muj [stddevs] in
  (* tf.exp(-tf.reduce_sum(normalized_distances_ui_muj**2, axis=-1)/2.
            - tf.reshape(tf.reduce_sum(logvars, axis=-1), [1, eval_batch_size])/2.) *)
  let p :=
    map (map fexp)
      (ew2 fsub
         (map (map (fun r => fdiv (fneg (fsum (map (fun x => fmul x x) r))) (Fin 2)))
            normalized_distances_ui_muj)
         [map (fun s => fdiv s (Fin 2)) (map fsum logvars)]) in
  let normalization_factor :=
    fpow (Fin (2 * PI)) (fdiv (of_nat embedding_dimension) (Fin 2)) in
  map (map (fun x => fdiv x normalization_factor)) p.

(** The two estimates of one batch, from the density matrix on.  (The source
    also binds [avg_pui_cond_xj], which it never uses.) *)
Definition bounds_of_density (eval_batch_size : nat) (p : list (list float64)) :
  float64 * float64 :=
  let p_ui_cond_xi := diag_part p in
  let infonce_lower := fmean (map flog (bcast fdiv p_ui_cond_xi (map fmean p))) in
  (* p_ui_cond_xj *= (1. - tf.eye(eval_batch_size)) *)
  let p := ew2 fmul p (map (map (fsub (Fin 1))) (eye eval_batch_size)) in
  let loo_upper := fmean (map flog (bcast fdiv p_ui_cond_xi (map fmean p))) in
  (infonce_lower, loo_upper).

(** [compute_batch], on what the encoder and the sampler produced. *)
Definition compute_batch (eval_batch_size : nat) (b : batch) : float64 * float64 :=
  bounds_of_density eval_batch_size (p_ui_cond_xj b).

(** [estimate_mi_sandwich_bounds].  [outcome k] is what the encoder and the
    sampler produce on the [k]-th batch taken from the repeated, shuffled and
    batched dataset.  A batch size of zero is refused by the dataset's
    [shuffle] and [batch]; [np.stack] refuses an empty list. *)
Definition estimate_mi_sandwich_bounds (outcome : nat -> batch)
    (eval_batch_size num_eval_batches : nat) : result (float64 * float64) :=
  if Nat.eqb eval_batch_size 0 then Raise TensorFlowError else
  let bound_estimates :=
    map (fun k => compute_batch eval_batch_size (outcome k)) (seq 0 num_eval_batches) in
  match bound_estimates with
  | [] => Raise (ValueError [stack_message])
  | _ =>
      (* np.mean(np.stack(bound_estimates, 0), 0) *)
      Ok (fmean (map fst bound_estimates), fmean (map snd bound_estimates))
  end.

(* ================================================================= *)
(** ** Entropy statistics *)

(** [np.log2]. *)
Definition flog2 (x : float64) : float64 :=
  match x with
  | Fin a =>
      match Rsign a with
      | Gt => Fin (ln a / ln 2)
      | Eq => NInf
      | Lt => NaN
      end
  | PInf => PInf
  | _ => NaN
  end.

(** IEEE [x > y]: false as soon as one side is [nan]. *)
Definition fgtb (x y : float64) : bool :=
  match x, y with
  | NaN, _ | _, NaN => false
  | Fin a, Fin b => if Rlt_dec b a then true else false
  | PInf, PInf | NInf, _ | Fin _, PInf => false
  | PInf, _ | Fin _, NInf => true
  end.

(** [compute_entropy_bits(probability_arr)], on a one-dimensional array. *)
Definition compute_entropy_bits (probability_arr : list float64) : float64 :=
  (* np.where(probability_arr>0, probability_arr, 1) *)
  let guarded := map (fun p => if fgtb p (Fin 0) then p else Fin 1) probability_arr in
  fneg (fsum (bcast fmul probability_arr (map flog2 guarded))).

Definition is_integer (b : R) : bool :=
  if Req_dec_T (frac_part b) 0 then true else false.

Definition is_odd_integer (b : R) : bool := is_integer b && Z.odd (Int_part b).

(** Comparison of [|a|] with one. *)
Definition Rabs_vs_one (a : R) : comparison := Rsign (Rabs a - 1).

(** [x ** y] on float64 values: the [pow] of IEEE 754. *)
Definition fpower (x y : float64) : float64 :=
  match y with
  | Fin b =>
      match Rsign b with
      | Eq => Fin 1
      | sb =>
          match x with
          | NaN => NaN
          | Fin a =>
              match Rsign a with
              | Gt => Fin (Rpower a b)
              | Eq => match sb with Lt => PInf | _ => Fin 0 end
              | Lt =>
                  if is_integer b then
                    Fin ((if Z.odd (Int_part b) then -1 else 1) * Rpower (- a) b)
                  else NaN
              end
          | PInf => match sb with Lt => Fin 0 | _ => PInf end
          | NInf =>
              match sb with
              | Lt => Fin 0
              | _ => if is_odd_integer b then NInf else PInf
              end
          end
      end
  | PInf =>
      match x with
      | NaN => NaN
      | Fin a =>
          match Rabs_vs_one a with
          | Lt => Fin 0
          | Eq => Fin 1
          | Gt => PInf
          end
      | _ => PInf
      end
  | NInf =>
      match x with
      | NaN => NaN
      | Fin a =>
          match Rabs_vs_one a with
          | Lt => PInf
          | Eq => Fin 1
          | Gt => Fin 0
          end
      | _ => Fin 0
      end
  | NaN =>
      match x with
      | Fin a => if Req_dec_T a 1 then Fin 1 else NaN
      | _ => NaN
      end
  end.

(** [entropy_rate_scaling_ansatz(N, h_inf, gamma, c)], on float64 scalars (or
    on one entry of float64 arrays). *)
Definition entropy_rate_scaling_ansatz (N h_inf gamma c : float64) : float64 :=
  fadd h_inf (fdiv (fdiv (flog2 N) (fpower N gamma)) (fabs c)).

(** The symbols of a sequence are integers that numpy stores as they are: an
    array built from Python integers within the int64 range has the dtype
    int64.  (Integers beyond that range are coerced to other dtypes; such
    sequences are outside the statements below that assume [int64_symbol].) *)
Definition int64_symbol (x : Z) : Prop :=
  (- 9223372036854775808 <= x < 9223372036854775808)%Z.

(** [np.unique(seq, return_counts=True)]: the distinct symbols in increasing
    order, each with the number of times it occurs.  A symbol is an integer. *)
Fixpoint insert_count (x : Z) (acc : list (Z * nat)) : list (Z * nat) :=
  match acc with
  | [] => [(x, 1%nat)]
  | (y, c) :: acc' =>
      if Z.ltb x y then (x, 1%nat) :: acc
      else if Z.eqb x y then (y, S c) :: acc'
      else (y, c) :: insert_count x acc'
  end.

Definition unique_counts (seq : list Z) : list (Z * nat) :=
  fold_right insert_count [] seq.

(** [compute_entropy(seq)]. *)
Definition compute_entropy (seq : list Z) : float64 :=
  (* _, counts = np.unique(seq, return_counts=True) *)
  let counts := map snd (unique_counts seq) in
  (* counts = counts / np.sum(counts) *)
  let total := fold_right Nat.add 0%nat counts in
  let counts := map (fun c => fdiv (of_nat c) (of_nat total)) counts in
  fneg (fsum (bcast fmul counts (map flog2 counts))).

(* ================================================================= *)
(** ** The quantities the statements are about, on real numbers *)

(** Squared Euclidean distance between two points. *)
Definition sq_dist (a b : list R) : R :=
  Rsum (zip_with (fun x y => (x - y) ^ 2) a b).

(** The expansion [|a|^2 + |b|^2 - 2 a.b], clamped at zero. *)
Definition sq_dist_expansion (a b : list R) : R :=
  Rmax (Rsum (map (fun x => x * x) a) + Rsum (map (fun x => x * x) b)
        - 2 * Rdot a b) 0.

(** Manhattan and Chebyshev distances between two points. *)
Definition l1_dist (a b : list R) : R :=
  Rsum (zip_with (fun x y => Rabs (x - y)) a b).

Fixpoint Rmax_list (l : list R) : R :=
  match l with
  | [] => 0
  | [x] => x
  | x :: l' => Rmax x (Rmax_list l')
  end.

Definition linf_dist (a b : list R) : R :=
  Rmax_list (zip_with (fun x y => Rabs (x - y)) a b).

(** The distance kinds of [get_scaled_similarity], their names, the kernel each
    one stands for and the distance between two points it measures. *)
Inductive distance_kind : Type := l2sq | l2 | l1 | linf.

Definition map_array (f : float64 -> float64) (a : array) : array :=
  mk_array (shape0 a) (shape1 a) (map (map f) (data a)).

Local Open Scope string_scope.
Definition kind_name (k : distance_kind) : String.string :=
  match k with
  | l2sq => "l2sq"
  | l2 => "l2"
  | l1 => "l1"
  | linf => "linf"
  end.
Local Close Scope string_scope.

Definition distance_kernel (k : distance_kind) (pts1 pts2 : array) : result array :=
  match k with
  | l2sq => pairwise_l2_distance pts1 pts2
  | l2 =>
      d <- pairwise_l2_distance pts1 pts2 ;;
      Ok (map_array (fun x => fsqrt (fadd x eps)) d)
  | l1 => pairwise_l1_distance pts1 pts2
  | linf => pairwise_linf_distance pts1 pts2
  end.

Definition point_distance (k : distance_kind) (a b : list R) : R :=
  match k with
  | l2sq => sq_dist a b
  | l2 => sqrt (sq_dist a b + 1e-9)
  | l1 => l1_dist a b
  | linf => linf_dist a b
  end.

(** The similarity kinds [get_scaled_similarity] implements. *)
Local Open Scope string_scope.
Definition supported_kinds : list String.string :=
  ["l2sq"; "l2"; "l1"; "linf"; "cosine"].
Local Close Scope string_scope.

(** Squared Euclidean norm of a point. *)
Definition sq_norm (a : list R) : R := Rsum (map (fun x => x * x) a).

(** Closed-form divergences between two diagonal Gaussians, given by their
    means and log-variances.  [kl_pair mu1 lv1 mu2 lv2] is [KL(N1 || N2)]. *)
Definition kl_pair (mu1 lv1 mu2 lv2 : list R) : R :=
  0.5 * (Rsum (zip_with (fun a b => exp a / exp b) lv1 lv2)
         + Rsum (zip_with (fun dm b => dm ^ 2 / exp b) (zip_with Rminus mu2 mu1) lv2)
         + Rsum lv2 - Rsum lv1 - INR (length mu1)).


Definition bhattacharyya_pair (mu1 lv1 mu2 lv2 : list R) : R :=
  let sigma := zip_with (fun a b => 0.5 * (exp a + exp b)) lv1 lv2 in
  0.125 * Rsum (zip_with (fun dm s => dm ^ 2 / s) (zip_with Rminus mu1 mu2) sigma)
  + 0.5 * ln (Rprod sigma / sqrt (exp (Rsum lv1) * exp (Rsum lv2))).

(** The density at the point [u] of the diagonal Gaussian with means [mu] and
    log-variances [lv], in the form the estimator evaluates it. *)
Definition gaussian_density (u mu lv : list R) : R :=
  exp (- Rsum (map (fun z => z * z)
                 (zip_with Rdiv (zip_with Rminus u mu) (map (fun x => exp (x / 2)) lv)))
       / 2
       - Rsum lv / 2)
  / Rpower (2 * PI) (INR (length mu) / 2).

(** What the encoder and the sampler hand over when every value is finite. *)
Definition finite_batch (B : nat) (b : batch) : Prop :=
  exists (d : nat) (mus logvars u : list (list R)),
    is_shape B d mus /\ is_shape B d logvars /\ is_shape B d u
    /\ b = mk_batch (of_reals B d mus) (of_reals B d logvars) (of_reals B d u).

(** [x <= y] between a finite value and a value that is finite or [+inf]. *)
Definition le_ext (x y : float64) : Prop :=
  exists a, x = Fin a /\ (y = PInf \/ exists b, y = Fin b /\ a <= b).

(** What the encoder and the sampler hand over in general: three arrays of
    shape [B, d] that may hold any floating-point value. *)
Definition array_of_shape (n d : nat) (a : array) : Prop :=
  shape0 a = n /\ shape1 a = d /\ is_shape n d (data a).

Definition batch_of_shape (B d : nat) (b : batch) : Prop :=
  array_of_shape B d (enc_mus b) /\ array_of_shape B d (enc_logvars b)
  /\ array_of_shape B d (sampled_u b).

(** The values an entry of the density matrix can take: an exponential
    divided by a positive number is non-negative, [+inf] or [nan]. *)
Definition density_value (x : float64) : Prop :=
  match x with
  | Fin a => 0 <= a
  | PInf | NaN => True
  | NInf => False
  end.

(** [x <= y] unless one of the two is [nan]. *)
Definition le_or_nan (x y : float64) : Prop :=
  x <> NaN -> y <> NaN -> fleb x y = true.

(** Two sums of non-negative terms, the second with some terms left out:
    both are [+inf], or both are finite and in order. *)
Definition dominates (x y : float64) : Prop :=
  (x = PInf /\ y = PInf) \/ exists s m, x = Fin s /\ y = Fin m /\ 0 <= m <= s.

(** Logarithm to base two, and the Shannon entropy in bits of a list of
    positive weights. *)
Definition Rlog2 (x : R) : R := ln x / ln 2.

Definition shannon_bits (l : list R) : R :=
  - Rsum (map (fun p => p * Rlog2 p) l).

(** The positive entries of an array. *)
Definition positive_entries (l : list R) : list R :=
  filter (fun p => if Rlt_dec 0 p then true else false) l.

(** The empirical frequencies of the distinct symbols of a sequence. *)
Definition counts_total (counts : list (Z * nat)) : nat :=
  fold_right Nat.add 0%nat (map snd counts).

Definition frequencies (seq : list Z) : list R :=
  map (fun vc => INR (snd vc) / INR (length seq)) (unique_counts seq).

(* ================================================================= *)
(** ** Arithmetic on finite values *)

Lemma Rsign_pos (x : R) : 0 < x -> Rsign x = Gt.
Proof.
  intros H. unfold Rsign.
  destruct (total_order_T 0 x) as [[H1 | H1] | H1]; try reflexivity; lra.
Qed.

Lemma Rsign_neg (x : R) : x < 0 -> Rsign x = Lt.
Proof.
  intros H. unfold Rsign.
  destruct (total_order_T 0 x) as [[H1 | H1] | H1]; try reflexivity; lra.
Qed.

Lemma Rsign_zero : Rsign 0 = Eq.
Proof.
  unfold Rsign.
  destruct (total_order_T 0 0) as [[H1 | H1] | H1]; try reflexivity; lra.
Qed.

Lemma Rsign_Eq (x : R) : Rsign x = Eq -> x = 0.
Proof.
  unfold Rsign.
  destruct (total_order_T 0 x) as [[H1 | H1] | H1]; intros H;
    try discriminate; lra.
Qed.

Lemma fdiv_fin (a b : R) : b <> 0 -> fdiv (Fin a) (Fin b) = Fin (a / b).
Proof.
  intros H. simpl. destruct (Rsign b) eqn:E; try reflexivity.
  apply Rsign_Eq in E. contradiction.
Qed.

Lemma flog_fin (a : R) : 0 < a -> flog (Fin a) = Fin (ln a).
Proof. intros H. simpl. now rewrite Rsign_pos. Qed.

Lemma fsqrt_fin (a : R) : 0 <= a -> fsqrt (Fin a) = Fin (sqrt a).
Proof.
  intros H. simpl. destruct (Rsign a) eqn:E; try reflexivity.
  unfold Rsign in E.
  destruct (total_order_T 0 a) as [[H1 | H1] | H1]; try discriminate; lra.
Qed.

Lemma fpow_fin (a b : R) : 0 < a -> fpow (Fin a) (Fin b) = Fin (Rpower a b).
Proof. intros H. simpl. now rewrite Rsign_pos. Qed.

Lemma fleb_fin (a b : R) : a <= b -> fleb (Fin a) (Fin b) = true.
Proof. intros H. simpl. destruct (Rle_dec a b); [reflexivity | contradiction]. Qed.

(* ================================================================= *)
(** ** Lists, tables and broadcasting *)

Section ListFacts.
Context {A B C : Type}.

Lemma zip_with_map {A' B' : Type} (f : A -> B -> C) (g : A' -> A) (h : B' -> B) xs ys :
  zip_with f (map g xs) (map h ys) = zip_with (fun x y => f (g x) (h y)) xs ys.
Proof.
  revert ys. induction xs as [| x xs IH]; intros [| y ys]; simpl; try reflexivity.
  now rewrite IH.
Qed.

Lemma zip_with_diag {D : Type} (f : A -> B -> C) (g : D -> A) (h : D -> B) l :
  zip_with f (map g l) (map h l) = map (fun x => f (g x) (h x)) l.
Proof. induction l as [| x l IH]; simpl; [reflexivity | now rewrite IH]. Qed.

Lemma zip_with_length (f : A -> B -> C) xs ys :
  length xs = length ys -> length (zip_with f xs ys) = length xs.
Proof.
  revert ys. induction xs as [| x xs IH]; intros [| y ys] H; simpl in *;
    try reflexivity; try discriminate.
  f_equal. apply IH. now injection H.
Qed.

Lemma bcast_singleton_r (f : A -> B -> C) xs y :
  bcast f xs [y] = map (fun x => f x y) xs.
Proof. destruct xs as [| x [| x' xs]]; reflexivity. Qed.

Lemma bcast_singleton_l (f : A -> B -> C) x ys :
  bcast f [x] ys = map (f x) ys.
Proof. reflexivity. Qed.

Lemma bcast_same_length (f : A -> B -> C) xs ys :
  length xs = length ys -> bcast f xs ys = zip_with f xs ys.
Proof.
  intros H. destruct xs as [| x [| x' xs]]; destruct ys as [| y [| y' ys]];
    simpl in *; try reflexivity; discriminate.
Qed.

Lemma bcast_diag {D : Type} (f : A -> B -> C) (g : D -> A) (h : D -> B) l :
  bcast f (map g l) (map h l) = map (fun x => f (g x) (h x)) l.
Proof.
  rewrite bcast_same_length by now rewrite !length_map.
  apply zip_with_diag.
Qed.
End ListFacts.

(** Broadcasting a column [n, 1] against a row [1, m]. *)
Lemma bcast_outer {A B C D E : Type} (f : A -> B -> C) (g : D -> A) (h : E -> B) xs ys :
  bcast (bcast f) (map (fun x => [g x]) xs) [map h ys]
  = map (fun x => map (fun y => f (g x) (h y)) ys) xs.
Proof.
  rewrite bcast_singleton_r, map_map. apply map_ext. intros x.
  rewrite bcast_singleton_l. apply map_map.
Qed.

(** An elementwise operation on two tables over the same rows and columns. *)
Lemma bcast_outer_same {A B C D E : Type} (f : A -> B -> C)
    (g : D -> E -> A) (h : D -> E -> B) xs ys :
  bcast (bcast f) (map (fun x => map (g x) ys) xs) (map (fun x => map (h x) ys) xs)
  = map (fun x => map (fun y => f (g x y) (h x y)) ys) xs.
Proof.
  rewrite bcast_diag. apply map_ext. intros x. apply bcast_diag.
Qed.

Lemma map_outer {A B D E : Type} (f : A -> B) (g : D -> E -> A) xs ys :
  map (map f) (map (fun x => map (g x) ys) xs)
  = map (fun x => map (fun y => f (g x y)) ys) xs.
Proof. rewrite map_map. apply map_ext. intros x. apply map_map. Qed.

Lemma outer_ext_in {A D E : Type} (g h : D -> E -> A) xs ys :
  (forall x y, In x xs -> In y ys -> g x y = h x y) ->
  map (fun x => map (g x) ys) xs = map (fun x => map (h x) ys) xs.
Proof.
  intros H. apply map_ext_in. intros x Hx. apply map_ext_in. intros y Hy. now apply H.
Qed.

Lemma nth_outer {A D E : Type} (g : D -> E -> A) xs ys i j dx dy da :
  (i < length xs)%nat -> (j < length ys)%nat ->
  nth j (nth i (map (fun x => map (g x) ys) xs) []) da = g (nth i xs dx) (nth j ys dy).
Proof.
  intros Hi Hj.
  rewrite (nth_indep _ [] (map (g dx) ys)) by now rewrite length_map.
  rewrite (map_nth (fun x => map (g x) ys)).
  rewrite (nth_indep _ da (g (nth i xs dx) dy)) by now rewrite length_map.
  now rewrite (map_nth (g (nth i xs dx))).
Qed.

(* ================================================================= *)
(** ** Sums of finite values *)

Lemma fsum_fin (l : list R) : fsum (map Fin l) = Fin (Rsum l).
Proof.
  induction l as [| x l IH]; [reflexivity |].
  unfold fsum, Rsum in *. simpl. now rewrite IH.
Qed.

Lemma fsum_map_fin {A : Type} (f : A -> R) (l : list A) :
  fsum (map (fun x => Fin (f x)) l) = Fin (Rsum (map f l)).
Proof. now rewrite <- fsum_fin, map_map. Qed.

Lemma fdot_fin (a b : list R) : fdot (map Fin a) (map Fin b) = Fin (Rdot a b).
Proof.
  revert b. induction a as [| x a IH]; intros [| y b]; try reflexivity.
  specialize (IH b). unfold fdot, Rdot, gdot, gsum in *. simpl.
  now rewrite IH.
Qed.

Lemma Rsum_nonneg (l : list R) : Forall (fun x => 0 <= x) l -> 0 <= Rsum l.
Proof.
  induction 1 as [| x l Hx _ IH]; unfold Rsum, gsum in *; simpl; lra.
Qed.

Lemma sq_dist_nonneg (a b : list R) : 0 <= sq_dist a b.
Proof.
  unfold sq_dist. revert b.
  induction a as [| x a IH]; intros [| y b]; unfold Rsum, gsum in *;
    cbn [zip_with fold_right]; try lra.
  specialize (IH b). pose proof (pow2_ge_0 (x - y)). lra.
Qed.

Lemma sq_dist_expand (a b : list R) :
  length a = length b ->
  sq_dist a b
  = Rsum (map (fun x => x * x) a) + Rsum (map (fun x => x * x) b) - 2 * Rdot a b.
Proof.
  unfold sq_dist, Rdot, gdot, Rsum, gsum. revert b.
  induction a as [| x a IH]; intros [| y b] H; cbn [zip_with fold_right map length] in *;
    try discriminate; try lra.
  rewrite IH by now injection H. lra.
Qed.

Lemma sq_dist_expansion_eq (a b : list R) :
  length a = length b -> sq_dist_expansion a b = sq_dist a b.
Proof.
  intros H. unfold sq_dist_expansion. rewrite <- sq_dist_expand by assumption.
  apply Rmax_left. apply sq_dist_nonneg.
Qed.

(** The array [pairwise_l2_distance] returns on finite points. *)
Lemma pairwise_l2_distance_reals (N M d1 d2 : nat) (A B : list (list R)) :
  d1 = d2 ->
  pairwise_l2_distance (of_reals N d1 A) (of_reals M d2 B)
  = Ok (of_reals N M (map (fun a => map (fun b => sq_dist_expansion a b) B) A)).
Proof.
  intros ->. unfold pairwise_l2_distance, of_reals. simpl.
  rewrite Nat.eqb_refl. do 2 f_equal.
  unfold matmul_transpose_b, ew2.
  rewrite bcast_outer, map_outer, bcast_outer_same, map_outer.
  rewrite (map_outer Fin), (map_map (map Fin)).
  apply map_ext. intros a. rewrite map_map. apply map_ext. intros b.
  rewrite !map_map. simpl. rewrite !fsum_map_fin, fdot_fin. reflexivity.
Qed.

Lemma is_shape_outer {A D E : Type} (g : D -> E -> A) xs ys :
  is_shape (length xs) (length ys) (map (fun x => map (g x) ys) xs).
Proof.
  split; [apply length_map |].
  apply Forall_forall. intros r Hr. apply in_map_iff in Hr.
  destruct Hr as (x & <- & _). apply length_map.
Qed.

Lemma is_shape_map {A B : Type} (f : A -> B) n d (rows : list (list A)) :
  is_shape n d rows -> is_shape n d (map (map f) rows).
Proof.
  intros [Hn Hd]. split; [now rewrite length_map |].
  apply Forall_forall. intros r Hr. apply in_map_iff in Hr.
  destruct Hr as (x & <- & Hx). rewrite length_map.
  now apply (proj1 (Forall_forall _ _) Hd).
Qed.

Lemma is_shape_nth {A : Type} n d (rows : list (list A)) i :
  is_shape n d rows -> (i < n)%nat -> length (nth i rows []) = d.
Proof.
  intros [Hn Hd] Hi. apply (proj1 (Forall_forall _ _) Hd).
  apply nth_In. now rewrite Hn.
Qed.

Lemma entry_of_reals_outer {D E : Type} (g : D -> E -> R) xs ys n m i j dx dy :
  (i < length xs)%nat -> (j < length ys)%nat ->
  entry (of_reals n m (map (fun x => map (g x) ys) xs)) i j
  = Fin (g (nth i xs dx) (nth j ys dy)).
Proof.
  intros Hi Hj. unfold entry, of_reals. simpl. rewrite map_outer.
  now rewrite (nth_outer (fun x y => Fin (g x y)) xs ys i j dx dy).
Qed.

(** ** C6: squared Euclidean distances *)

(** The arithmetic of [pairwise_l2_distance] is [l2_clamped] on [float64]. *)
Lemma pairwise_l2_distance_kernel (pts1 pts2 : array) :
  pairwise_l2_distance pts1 pts2
  = if Nat.eqb (shape1 pts1) (shape1 pts2) then
      Ok (mk_array (shape0 pts1) (shape0 pts2)
            (l2_clamped (Fin 0) (Fin 2) fadd fsub fmul fmax (data pts1) (data pts2)))
    else Raise TensorFlowError.
Proof. reflexivity. Qed.




(** ** C10: the dimension check of the Gaussian divergences *)

(** C10.  When the embedding dimensions of the two batches differ,
    [bhattacharyya_dist_mat] and [kl_divergence_mat] both fail on their initial
    assertion, whatever the arrays hold: no distance is computed. *)
Theorem divergences_reject_dimension_mismatch :
  forall mus1 logvars1 mus2 logvars2 : array,
    shape1 mus1 <> shape1 mus2 ->
    bhattacharyya_dist_mat mus1 logvars1 mus2 logvars2 = Raise AssertionError
    /\ kl_divergence_mat mus1 logvars1 mus2 logvars2 = Raise AssertionError.
Proof.
  intros mus1 logvars1 mus2 logvars2 H.
  assert (E : Nat.eqb (shape1 mus2) (shape1 mus1) = false).
  { apply Nat.eqb_neq. intros E. apply H. symmetry. exact E. }
  unfold bhattacharyya_dist_mat, kl_divergence_mat.
  rewrite E. split; reflexivity.
Qed.

Lemma divergences_reject_dimension_mismatch_witness :
  bhattacharyya_dist_mat (of_reals 1 2 [[0; 0]]) (of_reals 1 2 [[0; 0]])
                         (of_reals 1 3 [[0; 0; 0]]) (of_reals 1 3 [[0; 0; 0]])
  = Raise AssertionError
  /\ kl_divergence_mat (of_reals 1 2 [[0; 0]]) (of_reals 1 2 [[0; 0]])
                       (of_reals 1 3 [[0; 0; 0]]) (of_reals 1 3 [[0; 0; 0]])
     = Raise AssertionError.
Proof.
  apply divergences_reject_dimension_mismatch. simpl. lia.
Defined.

(* ================================================================= *)
(** ** The L1 and Chebyshev kernels on finite points *)

Lemma bcast_repeat {A B C : Type} (f : A -> B -> C) (x : A) (ys : list B) :
  bcast f (repeat x (length ys)) ys = map (f x) ys.
Proof.
  replace (repeat x (length ys)) with (map (fun _ : B => x) ys).
  - rewrite <- (map_id ys) at 2. apply bcast_diag.
  - induction ys as [| y ys IH]; simpl; [reflexivity | now rewrite IH].
Qed.

(** The tiled first point set against the second one. *)
Lemma tiled_difference (f : float64 -> float64 -> float64) (a b : list (list float64)) :
  ew3 f (tile_axis1 (length b) a) [b]
  = map (fun r1 => map (fun r2 => bcast f r1 r2) b) a.
Proof.
  unfold ew3, tile_axis1. rewrite bcast_singleton_r, map_map.
  apply map_ext. intros r1. apply bcast_repeat.
Qed.

Lemma bcast_fsub_fin (a b : list R) :
  length a = length b ->
  bcast fsub (map Fin a) (map Fin b) = map Fin (zip_with Rminus a b).
Proof.
  intros H. rewrite bcast_same_length by now rewrite !length_map.
  rewrite zip_with_map. revert b H.
  induction a as [| x a IH]; intros [| y b] H; simpl in *; try reflexivity;
    try discriminate.
  rewrite IH by now injection H. reflexivity.
Qed.

Lemma map_zip_with {A B C D : Type} (g : C -> D) (f : A -> B -> C) xs ys :
  map g (zip_with f xs ys) = zip_with (fun x y => g (f x y)) xs ys.
Proof.
  revert ys. induction xs as [| x xs IH]; intros [| y ys]; simpl; try reflexivity.
  now rewrite IH.
Qed.

Lemma freduce_max_fin (l : list R) :
  l <> [] -> freduce_max (map Fin l) = Fin (Rmax_list l).
Proof.
  induction l as [| x l IH]; [congruence |]. intros _.
  destruct l as [| y l]; [reflexivity |].
  unfold freduce_max in *. cbn [map fold_right] in *.
  rewrite IH by congruence. reflexivity.
Qed.

Lemma pairwise_l1_distance_reals (N M d : nat) (A B : list (list R)) :
  is_shape N d A -> is_shape M d B ->
  pairwise_l1_distance (of_reals N d A) (of_reals M d B)
  = Ok (of_reals N M (map (fun a => map (fun b => l1_dist a b) B) A)).
Proof.
  intros HA HB. unfold pairwise_l1_distance, of_reals, broadcastable. simpl.
  rewrite Nat.eqb_refl. simpl. do 2 f_equal.
  replace M with (length (map (map Fin) B)) by (rewrite length_map; apply HB).
  rewrite tiled_difference, map_outer, (map_outer Fin), (map_map (map Fin)).
  apply map_ext_in. intros a Ha. rewrite map_map. apply map_ext_in. intros b Hb.
  rewrite bcast_fsub_fin.
  - rewrite map_map. cbn [fabs]. rewrite fsum_map_fin. unfold l1_dist.
    now rewrite map_zip_with.
  - rewrite (proj1 (Forall_forall _ _) (proj2 HA) a Ha).
    now rewrite (proj1 (Forall_forall _ _) (proj2 HB) b Hb).
Qed.

Lemma pairwise_linf_distance_reals (N M d : nat) (A B : list (list R)) :
  is_shape N d A -> is_shape M d B -> (0 < d)%nat ->
  pairwise_linf_distance (of_reals N d A) (of_reals M d B)
  = Ok (of_reals N M (map (fun a => map (fun b => linf_dist a b) B) A)).
Proof.
  intros HA HB Hd. unfold pairwise_linf_distance, of_reals, broadcastable. simpl.
  rewrite Nat.eqb_refl. simpl. do 2 f_equal.
  replace M with (length (map (map Fin) B)) by (rewrite length_map; apply HB).
  rewrite tiled_difference, map_outer, (map_outer Fin), (map_map (map Fin)).
  apply map_ext_in. intros a Ha. rewrite map_map. apply map_ext_in. intros b Hb.
  pose proof (proj1 (Forall_forall _ _) (proj2 HA) a Ha) as La.
  pose proof (proj1 (Forall_forall _ _) (proj2 HB) b Hb) as Lb.
  cbv beta in La, Lb.
  rewrite bcast_fsub_fin by congruence.
  rewrite map_map. cbn [fabs]. rewrite <- (map_map (fun x => Rabs x) Fin).
  rewrite freduce_max_fin.
  - unfold linf_dist. now rewrite map_zip_with.
  - intros E. apply (f_equal (@length R)) in E.
    rewrite length_map, zip_with_length in E by congruence. simpl in E. lia.
Qed.

Lemma outer_reals_ext {T : Type} (N M d : nat) (A B : list (list R))
    (g h : list R -> list R -> T) :
  is_shape N d A -> is_shape M d B ->
  (forall a b, length a = d -> length b = d -> g a b = h a b) ->
  map (fun a => map (fun b => g a b) B) A = map (fun a => map (fun b => h a b) B) A.
Proof.
  intros HA HB H. apply outer_ext_in. intros a b Ha Hb. apply H.
  - exact (proj1 (Forall_forall _ _) (proj2 HA) a Ha).
  - exact (proj1 (Forall_forall _ _) (proj2 HB) b Hb).
Qed.

Lemma sq_dist_expansion_nonneg (a b : list R) : 0 <= sq_dist_expansion a b.
Proof. unfold sq_dist_expansion. apply Rmax_r. Qed.

(** Every distance kernel, on finite point sets of one embedding dimension,
    returns the table of the distances between the points. *)
Lemma distance_kernel_reals (k : distance_kind) (N M d : nat) (A B : list (list R)) :
  is_shape N d A -> is_shape M d B -> (k = linf -> (0 < d)%nat) ->
  distance_kernel k (of_reals N d A) (of_reals M d B)
  = Ok (of_reals N M (map (fun a => map (fun b => point_distance k a b) B) A)).
Proof.
  intros HA HB Hd. destruct k; simpl.
  - rewrite pairwise_l2_distance_reals by reflexivity. do 2 f_equal.
    apply (outer_reals_ext N M d); try assumption.
    intros a b La Lb. apply sq_dist_expansion_eq. congruence.
  - rewrite pairwise_l2_distance_reals by reflexivity. simpl.
    unfold map_array, of_reals. simpl. do 2 f_equal.
    rewrite !(map_outer Fin). rewrite map_outer.
    apply (outer_reals_ext N M d); try assumption.
    intros a b La Lb. unfold eps. cbn [fadd].
    rewrite fsqrt_fin by (pose proof (sq_dist_expansion_nonneg a b); lra).
    rewrite sq_dist_expansion_eq by congruence. reflexivity.
  - now apply (pairwise_l1_distance_reals N M d).
  - apply (pairwise_linf_distance_reals N M d); auto.
Qed.

(* ================================================================= *)
(** ** Similarities *)

Lemma fmul_minus_one (x : float64) : fmul (Fin (-1)) x = fneg x.
Proof.
  destruct x as [a | | |]; simpl.
  - f_equal. lra.
  - now rewrite Rsign_neg by lra.
  - now rewrite Rsign_neg by lra.
  - reflexivity.
Qed.

(** For a distance kind, the similarity is the kernel, negated, divided by the
    temperature. *)
Lemma get_scaled_similarity_distance (e1 e2 : array) (k : distance_kind) (t : float64) :
  get_scaled_similarity e1 e2 (kind_name k) t
  = (D <- distance_kernel k e1 e2 ;; Ok (map_array (fun x => fdiv (fneg x) t) D)).
Proof.
  unfold get_scaled_similarity.
  destruct k; cbn [kind_name String.eqb Ascii.eqb Bool.eqb distance_kernel];
    match goal with
    | |- context [pairwise_l2_distance e1 e2] => destruct (pairwise_l2_distance e1 e2) as [D | e]
    | |- context [pairwise_l1_distance e1 e2] => destruct (pairwise_l1_distance e1 e2) as [D | e]
    | |- context [pairwise_linf_distance e1 e2] =>
        destruct (pairwise_linf_distance e1 e2) as [D | e]
    end; cbn [bind]; try reflexivity;
    unfold divide_by, scale, map_array; cbn [shape0 shape1 data];
    rewrite ?map_map; do 2 f_equal; apply map_ext; intros r; rewrite ?map_map;
    apply map_ext; intros x; now rewrite fmul_minus_one.
Qed.

(** ** C7: distance-based similarities *)

(** C7.  For each of the kinds l2sq, l2, l1 and linf and every temperature,
    [get_scaled_similarity] is the corresponding distance kernel, negated and
    divided by the temperature, the kernel of l2 being the square root of the
    squared distance plus 1e-9.  On finite point sets of one embedding dimension
    and a finite non-zero temperature [t], entry [(i, j)] is
    [- dist(A_i, B_j) / t] for the distance of that kind. *)
Theorem get_scaled_similarity_negated_distance_over_temperature :
  (forall (e1 e2 : array) (k : distance_kind) (t : float64),
      get_scaled_similarity e1 e2 (kind_name k) t
      = (D <- distance_kernel k e1 e2 ;; Ok (map_array (fun x => fdiv (fneg x) t) D)))
  /\ (forall (k : distance_kind) (N M d : nat) (A B : list (list R)) (t : R),
         is_shape N d A -> is_shape M d B -> (k = linf -> (0 < d)%nat) -> t <> 0 ->
         exists S,
           get_scaled_similarity (of_reals N d A) (of_reals M d B) (kind_name k) (Fin t)
           = Ok S
           /\ shape0 S = N /\ shape1 S = M
           /\ forall i j, (i < N)%nat -> (j < M)%nat ->
                entry S i j
                = Fin (- point_distance k (nth i A []) (nth j B []) / t)).
Proof.
  split; [exact get_scaled_similarity_distance |].
  intros k N M d A B t HA HB Hd Ht.
  rewrite get_scaled_similarity_distance.
  rewrite (distance_kernel_reals k N M d) by assumption.
  cbn [bind]. eexists. split; [reflexivity |].
  split; [reflexivity |]. split; [reflexivity |].
  intros i j Hi Hj. unfold entry, map_array, of_reals. cbn [data].
  rewrite (map_outer Fin), map_outer.
  rewrite (nth_outer _ A B i j [] []) by (rewrite ?(proj1 HA), ?(proj1 HB); assumption).
  cbn [fneg]. now apply fdiv_fin.
Qed.

Lemma get_scaled_similarity_negated_distance_over_temperature_witness :
  exists S,
    get_scaled_similarity (of_reals 1 2 [[1; 5]]) (of_reals 1 2 [[4; 1]])
      (kind_name linf) (Fin 2) = Ok S
    /\ shape0 S = 1%nat /\ shape1 S = 1%nat
    /\ forall i j, (i < 1)%nat -> (j < 1)%nat ->
         entry S i j
         = Fin (- point_distance linf (nth i [[1; 5]] []) (nth j [[4; 1]] []) / 2).
Proof.
  apply (proj2 get_scaled_similarity_negated_distance_over_temperature
           linf 1%nat 1%nat 2%nat [[1; 5]] [[4; 1]] 2).
  - split; [reflexivity | repeat constructor].
  - split; [reflexivity | repeat constructor].
  - intros _. lia.
  - lra.
Defined.

(** ** C9: the temperature is not validated *)

(** C9, as the code has it.  [get_scaled_similarity] never inspects the
    temperature: for a supported kind and point sets of one embedding dimension
    there is a similarity matrix of shape [N, M] such that, for every
    temperature - positive, zero or negative -, the call returns that matrix
    divided by the temperature. *)
Theorem get_scaled_similarity_accepts_any_temperature :
  forall (e1 e2 : array) (kind : String.string),
    In kind supported_kinds -> shape1 e1 = shape1 e2 ->
    exists S0,
      shape0 S0 = shape0 e1 /\ shape1 S0 = shape0 e2
      /\ forall t : float64,
           get_scaled_similarity e1 e2 kind t = Ok (divide_by S0 t).
Proof.
  intros e1 e2 kind Hk Hd. unfold get_scaled_similarity.
  unfold supported_kinds in Hk. simpl in Hk.
  destruct Hk as [<- | [<- | [<- | [<- | [<- | []]]]]];
    cbn [String.eqb Ascii.eqb Bool.eqb];
    unfold pairwise_l2_distance, pairwise_l1_distance, pairwise_linf_distance,
      broadcastable, linalg_normalize; cbn [shape0 shape1 data];
    rewrite Hd, Nat.eqb_refl; cbn [orb bind];
    (eexists; split; [| split; [| intros t; reflexivity]]; reflexivity).
Qed.

Local Open Scope string_scope.

Lemma get_scaled_similarity_accepts_any_temperature_witness :
  exists S0,
    shape0 S0 = 1%nat /\ shape1 S0 = 1%nat
    /\ forall t : float64,
         get_scaled_similarity (of_reals 1 1 [[0]]) (of_reals 1 1 [[1]]) "l1" t
         = Ok (divide_by S0 t).
Proof.
  apply (get_scaled_similarity_accepts_any_temperature
           (of_reals 1 1 [[0]]) (of_reals 1 1 [[1]]) "l1").
  - unfold supported_kinds. simpl. tauto.
  - reflexivity.
Defined.

(** C9, as stated, fails: with the temperature [-1] the call returns a matrix
    and raises nothing. *)
Lemma nonpositive_temperature_returns_a_matrix :
  get_scaled_similarity (of_reals 1 1 [[0]]) (of_reals 1 1 [[1]]) "l1" (Fin (-1))
  = Ok (of_reals 1 1 [[1]])
  /\ ~ (exists e : exn,
          get_scaled_similarity (of_reals 1 1 [[0]]) (of_reals 1 1 [[1]]) "l1" (Fin (-1))
          = Raise e).
Proof.
  assert (E : get_scaled_similarity (of_reals 1 1 [[0]]) (of_reals 1 1 [[1]]) "l1" (Fin (-1))
              = Ok (of_reals 1 1 [[1]])).
  { rewrite (get_scaled_similarity_distance _ _ l1).
    cbn [distance_kernel].
    rewrite (pairwise_l1_distance_reals 1 1 1)
      by (split; [reflexivity | repeat constructor]).
    cbn [bind]. unfold map_array, of_reals. cbn [shape0 shape1 data map fneg].
    rewrite fdiv_fin by lra. do 5 f_equal.
    unfold l1_dist, Rsum, gsum. cbn [zip_with fold_right].
    assert (H : Rabs (0 - 1) = 1) by (unfold Rabs; destruct (Rcase_abs (0 - 1)); lra).
    rewrite H. field. }
  split; [exact E |]. intros [e He]. rewrite E in He. discriminate.
Qed.

Local Close Scope string_scope.

(* ================================================================= *)
(** ** Cosine similarity *)

(** One row of [tf.linalg.normalize]: every entry divided by the row's norm. *)
Lemma linalg_normalize_rows (a : array) :
  data (linalg_normalize a)
  = map (fun r => map (fun x => fdiv x (fsqrt (fsum (map (fun x => fmul x x) r)))) r)
      (data a).
Proof.
  unfold linalg_normalize, ew2. cbn [data].
  rewrite <- (map_id (data a)) at 1. rewrite bcast_diag.
  apply map_ext. intros r. apply bcast_singleton_r.
Qed.

Lemma sq_norm_nonneg (a : list R) : 0 <= sq_norm a.
Proof.
  unfold sq_norm. apply Rsum_nonneg. apply Forall_forall. intros y Hy.
  apply in_map_iff in Hy. destruct Hy as (x & <- & _). nra.
Qed.

Lemma sq_norm_zero (a : list R) : sq_norm a = 0 -> Forall (fun x => x = 0) a.
Proof.
  induction a as [| x a IH]; intros H; constructor.
  - pose proof (sq_norm_nonneg a). unfold sq_norm, Rsum, gsum in *.
    cbn [map fold_right] in H. nra.
  - apply IH. pose proof (sq_norm_nonneg a). unfold sq_norm, Rsum, gsum in *.
    cbn [map fold_right] in H. nra.
Qed.

Lemma fsum_squares_fin (a : list R) :
  fsum (map (fun x => fmul x x) (map Fin a)) = Fin (sq_norm a).
Proof. rewrite map_map. cbn [fmul]. apply fsum_map_fin. Qed.

(** A row of zero norm is normalized to [nan]s: each entry is [0 / 0]. *)
Lemma normalize_row_zero (a : list R) :
  sq_norm a = 0 ->
  map (fun x => fdiv x (fsqrt (fsum (map (fun x => fmul x x) (map Fin a))))) (map Fin a)
  = repeat NaN (length a).
Proof.
  intros H. rewrite fsum_squares_fin, H, fsqrt_fin, sqrt_0 by lra.
  apply sq_norm_zero in H. clear -H.
  induction H as [| x a Hx _ IH]; [reflexivity |].
  cbn [map length repeat]. rewrite IH. subst x.
  cbn [fdiv]. now rewrite !Rsign_zero.
Qed.

Local Open Scope string_scope.

Lemma get_scaled_similarity_cosine (N M d : nat) (A B : list (list R)) (t : float64) :
  get_scaled_similarity (of_reals N d A) (of_reals M d B) "cosine" t
  = Ok (mk_array N M
          (map (fun a =>
                  map (fun b =>
                         fdiv
                           (fdot
                              (map (fun x => fdiv x
                                      (fsqrt (fsum (map (fun x => fmul x x) (map Fin a)))))
                                 (map Fin a))
                              (map (fun x => fdiv x
                                      (fsqrt (fsum (map (fun x => fmul x x) (map Fin b)))))
                                 (map Fin b)))
                           t) B) A)).
Proof.
  unfold get_scaled_similarity. cbn [String.eqb Ascii.eqb Bool.eqb].
  change (shape1 (linalg_normalize (of_reals N d A))) with d.
  change (shape1 (linalg_normalize (of_reals M d B))) with d.
  change (shape0 (linalg_normalize (of_reals N d A))) with N.
  change (shape0 (linalg_normalize (of_reals M d B))) with M.
  rewrite Nat.eqb_refl, !linalg_normalize_rows.
  cbn [bind]. unfold divide_by, of_reals. cbn [shape0 shape1 data]. do 2 f_equal.
  unfold matmul_transpose_b.
  rewrite !map_map. apply map_ext. intros a. rewrite !map_map. reflexivity.
Qed.

(** ** C8: cosine similarity *)

(** C8.  The code at a zero row.  [tf.linalg.normalize] divides by the norm
    without a guard: the zero row of [[[0, 0]]] is normalized to [nan]s, not to
    a zero vector, and its cosine similarity with [[[1, 0]]] is [nan], which is
    not a value between [-1] and [1].  Every step of this evaluation is exact
    in floating point as well. *)
Lemma zero_row_is_normalized_to_nan :
  linalg_normalize (of_reals 1 2 [[0; 0]]) = mk_array 1 2 [[NaN; NaN]]
  /\ linalg_normalize (of_reals 1 2 [[0; 0]]) <> of_reals 1 2 [[0; 0]]
  /\ get_scaled_similarity (of_reals 1 2 [[0; 0]]) (of_reals 1 2 [[1; 0]]) "cosine" (Fin 1)
     = Ok (mk_array 1 1 [[NaN]])
  /\ fleb (Fin (-1)) NaN = false /\ fleb NaN (Fin 1) = false.
Proof.
  assert (Z : sq_norm [0; 0] = 0) by (unfold sq_norm, Rsum, gsum; simpl; lra).
  assert (E : linalg_normalize (of_reals 1 2 [[0; 0]]) = mk_array 1 2 [[NaN; NaN]]).
  { unfold linalg_normalize, of_reals, ew2, fsum.
    cbn [data map bcast gsum fold_right fmul fadd shape0 shape1].
    replace (0 * 0 + (0 * 0 + 0)) with 0 by lra.
    rewrite fsqrt_fin, sqrt_0 by lra. cbn [fdiv]. now rewrite !Rsign_zero. }
  split; [exact E |]. split.
  - rewrite E. unfold of_reals. simpl. discriminate.
  - split; [| split; reflexivity].
    rewrite get_scaled_similarity_cosine.
    change [[0; 0]] with ([0; 0] :: @nil (list R)). rewrite (map_cons _ [0; 0]).
    rewrite (normalize_row_zero [0; 0] Z). reflexivity.
Qed.

Local Close Scope string_scope.

(* ================================================================= *)
(** ** Tiled tensors, diagonal matrices and the quadratic form *)

Lemma list_as_tab {T : Type} (l : list T) (d : T) :
  l = map (fun i => nth i l d) (seq 0 (length l)).
Proof.
  induction l as [| x l IH]; [reflexivity |].
  cbn [length seq map nth]. f_equal.
  rewrite <- seq_shift, map_map. exact IH.
Qed.

Lemma repeat_as_map {T U : Type} (x : T) (l : list U) :
  repeat x (length l) = map (fun _ => x) l.
Proof. induction l as [| y l IH]; simpl; [reflexivity | now rewrite IH]. Qed.

Lemma tile_axis1_tab {T : Type} (n m : nat) (a : list (list T)) :
  length a = n -> tile_axis1 m a = tab n m (fun i _ => nth i a []).
Proof.
  intros <-. unfold tile_axis1, tab.
  rewrite (list_as_tab a []) at 1. rewrite map_map. apply map_ext. intros i.
  rewrite <- (length_seq m 0) at 1. apply repeat_as_map.
Qed.

Lemma tile_axis0_tab {T : Type} (n m : nat) (b : list (list T)) :
  length b = m -> tile_axis0 n b = tab n m (fun _ j => nth j b []).
Proof.
  intros <-. unfold tile_axis0, tab.
  rewrite <- (length_seq n 0) at 1. rewrite repeat_as_map.
  apply map_ext. intros _. apply list_as_tab.
Qed.

Lemma tab_ext {T : Type} (n m : nat) (g h : nat -> nat -> T) :
  (forall i j, (i < n)%nat -> (j < m)%nat -> g i j = h i j) -> tab n m g = tab n m h.
Proof.
  intros H. unfold tab. apply outer_ext_in. intros i j Hi Hj.
  apply in_seq in Hi. apply in_seq in Hj. apply H; lia.
Qed.

Lemma nth_tab {T : Type} (n m : nat) (g : nat -> nat -> T) (i j : nat) (d : T) :
  (i < n)%nat -> (j < m)%nat -> nth j (nth i (tab n m g) []) d = g i j.
Proof.
  intros Hi Hj. unfold tab.
  rewrite (nth_outer g (seq 0 n) (seq 0 m) i j 0%nat 0%nat) by now rewrite length_seq.
  now rewrite !seq_nth.
Qed.

Lemma is_shape_tab {T : Type} (n m : nat) (g : nat -> nat -> T) : is_shape n m (tab n m g).
Proof.
  pose proof (is_shape_outer g (seq 0 n) (seq 0 m)) as H.
  now rewrite !length_seq in H.
Qed.

Lemma firstn_skipn_app_exact {T : Type} (l1 l2 : list T) :
  firstn (length l1) (l1 ++ l2) = l1 /\ skipn (length l1) (l1 ++ l2) = l2.
Proof.
  induction l1 as [| x l1 [IH1 IH2]]; [split; reflexivity |].
  simpl. rewrite IH1, IH2. split; reflexivity.
Qed.

Lemma chunks_concat {T : Type} (m : nat) (rows : list (list T)) :
  Forall (fun r => length r = m) rows -> chunks (length rows) m (concat rows) = rows.
Proof.
  induction 1 as [| r rows Hr _ IH]; [reflexivity |].
  cbn [length chunks concat]. subst m.
  destruct (firstn_skipn_app_exact r (concat rows)) as [-> ->].
  now rewrite IH.
Qed.

(** Reshaping a stack of 1 x 1 matrices into a matrix. *)
Lemma reshape_4_2_tab {T : Type} (n m : nat) (g : nat -> nat -> T) :
  reshape_4_2 n m (tab n m (fun i j => [[g i j]])) = tab n m g.
Proof.
  unfold reshape_4_2.
  assert (E : concat (concat (concat (tab n m (fun i j => [[g i j]]))))
              = concat (tab n m g)).
  { assert (I : forall (h : nat -> T) l, concat (concat (map (fun j => [[h j]]) l)) = map h l).
    { intros h l. induction l as [| j l IH]; [reflexivity |].
      cbn [map concat app]. now rewrite IH. }
    unfold tab. induction (seq 0 n) as [| i l IH]; [reflexivity |].
    cbn [map concat]. rewrite !concat_app, IH. f_equal. apply I. }
  rewrite E. destruct (is_shape_tab n m g) as [Hn Hm].
  rewrite <- Hn at 1. now apply chunks_concat.
Qed.

Section Diagonal.
Context {T : Type} (zero : T).

Lemma length_gdiag (w : list T) : length (gdiag zero w) = length w.
Proof.
  induction w as [| x w IH]; [reflexivity |].
  cbn [gdiag length]. now rewrite length_map, IH.
Qed.

(** A diagonal matrix is its own transpose. *)
Lemma columns_gdiag (w : list T) : columns zero (length w) (gdiag zero w) = gdiag zero w.
Proof.
  induction w as [| x w IH]; [reflexivity |].
  unfold columns in *. cbn [length seq map gdiag nth]. f_equal.
  - f_equal. rewrite map_map. cbn [nth].
    rewrite <- (length_gdiag w). apply eq_sym, repeat_as_map.
  - rewrite <- seq_shift, map_map.
    transitivity (map (cons zero)
                    (map (fun j => map (fun r => nth j r zero) (gdiag zero w))
                       (seq 0 (length w)))); [| now rewrite IH].
    rewrite map_map. apply map_ext. intros j. cbn [nth]. f_equal.
    + destruct (Nat.lt_ge_cases j (length w)) as [Hj | Hj].
      * now apply nth_repeat_lt.
      * apply nth_overflow. now rewrite repeat_length.
    + now rewrite map_map.
Qed.

(** The transpose of a column is a row. *)
Lemma columns_of_column (v : list T) : columns zero 1 (map (fun x => [x]) v) = [v].
Proof.
  unfold columns. cbn [seq map]. f_equal. rewrite map_map. cbn [nth]. apply map_id.
Qed.
End Diagonal.

Lemma gdiag_map {T U : Type} (h : T -> U) (zero : T) (w : list T) :
  gdiag (h zero) (map h w) = map (map h) (gdiag zero w).
Proof.
  induction w as [| x w IH]; [reflexivity |].
  cbn [map gdiag]. rewrite IH, length_map. f_equal.
  - f_equal. clear. induction (length w) as [| n IH]; simpl; [reflexivity | now rewrite IH].
  - rewrite !map_map. reflexivity.
Qed.

Lemma Rdot_zeros (v : list R) (n : nat) : Rdot v (repeat 0 n) = 0.
Proof.
  revert n. induction v as [| a v IH]; intros [| n]; try reflexivity.
  specialize (IH n). unfold Rdot, gdot, gsum in *. cbn [repeat zip_with fold_right].
  rewrite IH. lra.
Qed.

(** A row times a diagonal matrix scales the row entry by entry. *)
Lemma Rdot_gdiag (v w : list R) :
  length v = length w -> map (Rdot v) (gdiag 0 w) = zip_with Rmult v w.
Proof.
  revert w. induction v as [| a v IH]; intros [| x w] H; try discriminate;
    [reflexivity |].
  cbn [gdiag map zip_with]. f_equal.
  - unfold Rdot, gdot, gsum. cbn [zip_with fold_right].
    pose proof (Rdot_zeros v (length w)) as Z. unfold Rdot, gdot, gsum in Z.
    rewrite Z. lra.
  - rewrite map_map. rewrite <- IH by (now injection H).
    apply map_ext. intros c. unfold Rdot, gdot, gsum. cbn [zip_with fold_right]. lra.
Qed.

(** The quadratic form [dv^T @ diag(w) @ dv] as the program computes it. *)
Lemma quadratic_form_fin (d : nat) (dv w : list R) :
  length dv = d -> length w = d ->
  gmatmul (Fin 0) fadd fmul 1
    (gmatmul (Fin 0) fadd fmul d
       (columns (Fin 0) 1 (map (fun x => [x]) (map Fin dv)))
       (gdiag (Fin 0) (map Fin w)))
    (map (fun x => [x]) (map Fin dv))
  = [[Fin (Rdot (zip_with Rmult dv w) dv)]].
Proof.
  intros Hv Hw. rewrite columns_of_column. unfold gmatmul at 2. cbn [map].
  replace d with (length (map Fin w)) by now rewrite length_map.
  rewrite columns_gdiag, gdiag_map, map_map.
  fold fdot. rewrite (map_ext _ (fun c => Fin (Rdot dv c))) by (intros c; apply fdot_fin).
  rewrite <- (map_map (Rdot dv) Fin), Rdot_gdiag by congruence.
  unfold gmatmul. cbn [map]. rewrite columns_of_column. cbn [map].
  fold fdot. now rewrite fdot_fin.
Qed.

(** Entry-wise operations on rows of finite values. *)
Lemma bcast_fin (f : float64 -> float64 -> float64) (g : R -> R -> R) (a b : list R) :
  (forall x y, f (Fin x) (Fin y) = Fin (g x y)) ->
  length a = length b ->
  bcast f (map Fin a) (map Fin b) = map Fin (zip_with g a b).
Proof.
  intros Hf H. rewrite bcast_same_length by now rewrite !length_map.
  rewrite zip_with_map, map_zip_with. revert b H.
  induction a as [| x a IH]; intros [| y b] H; try discriminate; try reflexivity.
  cbn [zip_with]. rewrite Hf, IH by (now injection H). reflexivity.
Qed.

Lemma map_fin (f : float64 -> float64) (g : R -> R) (a : list R) :
  (forall x, In x a -> f (Fin x) = Fin (g x)) ->
  map f (map Fin a) = map Fin (map g a).
Proof.
  intros Hf. rewrite !map_map. apply map_ext_in. exact Hf.
Qed.

Lemma fprod_fin (l : list R) : fprod (map Fin l) = Fin (Rprod l).
Proof.
  induction l as [| x l IH]; [reflexivity |].
  unfold fprod, Rprod in *. cbn [map fold_right]. now rewrite IH.
Qed.

Lemma nth_map_fin (rows : list (list R)) (i : nat) :
  nth i (map (map Fin) rows) [] = map Fin (nth i rows []).
Proof. exact (map_nth (map Fin) rows [] i). Qed.

Lemma bcast_tab {A B C : Type} (F : A -> B -> C) (n m : nat)
    (g : nat -> nat -> A) (h : nat -> nat -> B) :
  bcast (bcast F) (tab n m g) (tab n m h) = tab n m (fun i j => F (g i j) (h i j)).
Proof. unfold tab. apply bcast_outer_same. Qed.

Lemma map_tab {A B : Type} (f : A -> B) (n m : nat) (g : nat -> nat -> A) :
  map (map f) (tab n m g) = tab n m (fun i j => f (g i j)).
Proof. unfold tab. apply map_outer. Qed.

(* ================================================================= *)
(** ** The divergences on finite Gaussian batches *)

Lemma Rsum_exp_ratio (lv1 lv2 : list R) :
  Rsum (zip_with (fun a b => exp (- a) * exp b) lv2 lv1)
  = Rsum (zip_with (fun a b => exp a / exp b) lv1 lv2).
Proof.
  revert lv2. induction lv1 as [| a lv1 IH]; intros [| b lv2]; try reflexivity.
  specialize (IH lv2). unfold Rsum, gsum in *. cbn [zip_with fold_right].
  rewrite IH, exp_Ropp. unfold Rdiv. ring.
Qed.

Lemma Rdot_inverse_weights (dv sg : list R) :
  Rdot (zip_with Rmult dv (map (fun s => 1 / s) sg)) dv
  = Rsum (zip_with (fun dm s => dm ^ 2 / s) dv sg).
Proof.
  revert sg. induction dv as [| x dv IH]; intros [| s sg]; try reflexivity.
  specialize (IH sg). unfold Rdot, gdot, Rsum, gsum in *.
  cbn [map zip_with fold_right]. rewrite IH. unfold Rdiv. ring.
Qed.

Lemma zip_with_map_r {A B B' C : Type} (f : A -> B -> C) (h : B' -> B) xs ys :
  zip_with f xs (map h ys) = zip_with (fun x y => f x (h y)) xs ys.
Proof.
  revert ys. induction xs as [| x xs IH]; intros [| y ys]; simpl; try reflexivity.
  now rewrite IH.
Qed.

Lemma kl_divergence_mat_reals (N M d : nat) (m1 l1 m2 l2 : list (list R)) :
  (0 < N)%nat -> (0 < M)%nat ->
  is_shape N d m1 -> is_shape N d l1 -> is_shape M d m2 -> is_shape M d l2 ->
  kl_divergence_mat (of_reals N d m1) (of_reals N d l1)
                    (of_reals M d m2) (of_reals M d l2)
  = Ok (of_reals N M
          (tab N M (fun i j =>
                      kl_pair (nth i m1 []) (nth i l1 []) (nth j m2 []) (nth j l2 [])))).
Proof.
  intros HN HM Hm1 Hl1 Hm2 Hl2.
  unfold kl_divergence_mat, of_reals. cbn [shape0 shape1 data].
  rewrite Nat.eqb_refl. cbn [negb]. unfold apply_along_axis_diag.
  replace (Nat.eqb (N * M) 0) with false by (symmetry; apply Nat.eqb_neq; nia).
  cbn [bind].
  rewrite !(tile_axis1_tab N M) by (rewrite length_map; apply Hm1 || apply Hl1).
  rewrite !(tile_axis0_tab N M) by (rewrite length_map; apply Hm2 || apply Hl2).
  unfold ew3, ew2, stack_matmul.
  repeat rewrite ?bcast_tab, ?map_tab.
  match goal with
  | |- context [reshape_4_2 N M (tab N M ?g)] =>
      rewrite (tab_ext N M g
                 (fun i j =>
                    [[Fin (Rdot
                             (zip_with Rmult
                                (zip_with Rminus (nth j m2 []) (nth i m1 []))
                                (map (fun s => 1 / s) (map exp (nth j l2 []))))
                             (zip_with Rminus (nth j m2 []) (nth i m1 [])))]]))
  end.
  2:{ intros i j Hi Hj. rewrite !nth_map_fin.
      pose proof (is_shape_nth N d m1 i Hm1 Hi) as L1.
      pose proof (is_shape_nth M d m2 j Hm2 Hj) as L2.
      pose proof (is_shape_nth M d l2 j Hl2 Hj) as L3.
      rewrite (bcast_fin fsub Rminus) by (reflexivity || congruence).
      rewrite (map_fin fexp exp) by reflexivity.
      rewrite (map_fin (fdiv (Fin 1)) (fun s => 1 / s)).
      - apply quadratic_form_fin.
        + rewrite zip_with_length; congruence.
        + now rewrite !length_map.
      - intros s Hs. apply in_map_iff in Hs. destruct Hs as (x & <- & _).
        apply fdiv_fin. pose proof (exp_pos x). lra. }
  rewrite reshape_4_2_tab, bcast_tab, map_tab.
  do 2 f_equal. apply tab_ext. intros i j Hi Hj. rewrite !nth_map_fin.
  pose proof (is_shape_nth N d m1 i Hm1 Hi) as L1.
  pose proof (is_shape_nth N d l1 i Hl1 Hi) as L2.
  pose proof (is_shape_nth M d m2 j Hm2 Hj) as L3.
  pose proof (is_shape_nth M d l2 j Hl2 Hj) as L4.
  rewrite (map_fin fexp exp) by reflexivity.
  rewrite (map_fin (fun x => fexp (fneg x)) (fun x => exp (- x))) by reflexivity.
  rewrite (bcast_fin fmul Rmult) by (reflexivity || (rewrite !length_map; congruence)).
  rewrite !fsum_fin. unfold of_nat. cbn [fsub fneg fadd fmul]. f_equal.
  rewrite zip_with_map, Rsum_exp_ratio, Rdot_inverse_weights, zip_with_map_r.
  unfold kl_pair. rewrite L1. lra.
Qed.

Lemma entry_of_reals_tab (n m : nat) (g : nat -> nat -> R) (i j : nat) :
  (i < n)%nat -> (j < m)%nat -> entry (of_reals n m (tab n m g)) i j = Fin (g i j).
Proof.
  intros Hi Hj. unfold entry, of_reals. cbn [data]. rewrite map_tab.
  now apply nth_tab.
Qed.

Lemma wf_of_reals_tab (n m : nat) (g : nat -> nat -> R) :
  wf_array (of_reals n m (tab n m g)).
Proof. unfold wf_array, of_reals. cbn. apply is_shape_map, is_shape_tab. Qed.


(** With an empty batch on either side, both divergences stop at
    [np.apply_along_axis]. *)
Lemma divergences_refuse_empty_batches (mus1 logvars1 mus2 logvars2 : array) :
  shape1 mus2 = shape1 mus1 -> (shape0 mus1 * shape0 mus2 = 0)%nat ->
  bhattacharyya_dist_mat mus1 logvars1 mus2 logvars2
  = Raise (ValueError [apply_along_axis_message])
  /\ kl_divergence_mat mus1 logvars1 mus2 logvars2
     = Raise (ValueError [apply_along_axis_message]).
Proof.
  intros Hd Hz. unfold bhattacharyya_dist_mat, kl_divergence_mat, apply_along_axis_diag.
  rewrite Hd, Nat.eqb_refl, Hz. split; reflexivity.
Qed.

(** ** C3: the closed form of the KL divergence *)

(** C3.  On finite Gaussian batches of shapes [N] x [d] and [M] x [d], and for
    every position [(i, j)] with [i < N] and [j < M], [kl_divergence_mat]
    returns an [N] x [M] array whose entry [(i, j)] is
    [0.5 * (sum_k exp(lv1[i,k]) / exp(lv2[j,k])
            + sum_k (mu2[j,k] - mu1[i,k])^2 / exp(lv2[j,k])
            + sum_k lv2[j,k] - sum_k lv1[i,k] - d)]. *)
Theorem kl_divergence_mat_closed_form :
  forall (N M d : nat) (mus1 logvars1 mus2 logvars2 : list (list R)) (i j : nat),
    is_shape N d mus1 -> is_shape N d logvars1 ->
    is_shape M d mus2 -> is_shape M d logvars2 ->
    (i < N)%nat -> (j < M)%nat ->
    exists K,
      kl_divergence_mat (of_reals N d mus1) (of_reals N d logvars1)
                        (of_reals M d mus2) (of_reals M d logvars2) = Ok K
      /\ shape0 K = N /\ shape1 K = M /\ wf_array K
      /\ entry K i j
         = Fin (0.5 * (Rsum (zip_with (fun a b => exp a / exp b)
                               (nth i logvars1 []) (nth j logvars2 []))
                       + Rsum (zip_with (fun dm b => dm ^ 2 / exp b)
                                 (zip_with Rminus (nth j mus2 []) (nth i mus1 []))
                                 (nth j logvars2 []))
                       + Rsum (nth j logvars2 []) - Rsum (nth i logvars1 [])
                       - INR d)).
Proof.
  intros N M d mus1 logvars1 mus2 logvars2 i j H1 H2 H3 H4 Hi Hj.
  rewrite (kl_divergence_mat_reals N M d) by (assumption || lia).
  eexists. split; [reflexivity |]. split; [reflexivity |]. split; [reflexivity |].
  split; [apply wf_of_reals_tab |].
  rewrite entry_of_reals_tab by assumption.
  unfold kl_pair. now rewrite (is_shape_nth N d mus1 i H1 Hi).
Qed.

Lemma kl_divergence_mat_closed_form_witness :
  exists K,
    kl_divergence_mat (of_reals 1 1 [[0]]) (of_reals 1 1 [[0]])
                      (of_reals 1 1 [[1]]) (of_reals 1 1 [[0]]) = Ok K
    /\ shape0 K = 1%nat /\ shape1 K = 1%nat /\ wf_array K
    /\ entry K 0 0
       = Fin (0.5 * (Rsum (zip_with (fun a b => exp a / exp b)
                             (nth 0 [[0]] []) (nth 0 [[0]] []))
                     + Rsum (zip_with (fun dm b => dm ^ 2 / exp b)
                               (zip_with Rminus (nth 0 [[1]] []) (nth 0 [[0]] []))
                               (nth 0 [[0]] []))
                     + Rsum (nth 0 [[0]] []) - Rsum (nth 0 [[0]] [])
                     - INR 1)).
Proof.
  apply (kl_divergence_mat_closed_form 1 1 1 [[0]] [[0]] [[1]] [[0]] 0 0);
    try lia; (split; [reflexivity | repeat constructor]).
Defined.

(** ** C5: a batch against itself *)





Lemma averaged_variance_pos (lv1 lv2 : list R) :
  Forall (fun s => 0 < s) (zip_with (fun a b => 0.5 * (exp a + exp b)) lv1 lv2).
Proof.
  revert lv2. induction lv1 as [| a lv1 IH]; intros [| b lv2]; cbn [zip_with];
    constructor; [| apply IH].
  pose proof (exp_pos a). pose proof (exp_pos b). lra.
Qed.

Lemma Rprod_pos (l : list R) : Forall (fun s => 0 < s) l -> 0 < Rprod l.
Proof.
  induction 1 as [| x l Hx _ IH]; unfold Rprod in *; cbn [fold_right]; [lra |].
  now apply Rmult_lt_0_compat.
Qed.

Lemma bhattacharyya_dist_mat_reals (N M d : nat) (m1 l1 m2 l2 : list (list R)) :
  (0 < N)%nat -> (0 < M)%nat ->
  is_shape N d m1 -> is_shape N d l1 -> is_shape M d m2 -> is_shape M d l2 ->
  bhattacharyya_dist_mat (of_reals N d m1) (of_reals N d l1)
                         (of_reals M d m2) (of_reals M d l2)
  = Ok (of_reals N M
          (tab N M (fun i j =>
                      bhattacharyya_pair (nth i m1 []) (nth i l1 [])
                                         (nth j m2 []) (nth j l2 [])))).
Proof.
  intros HN HM Hm1 Hl1 Hm2 Hl2.
  unfold bhattacharyya_dist_mat, of_reals. cbn [shape0 shape1 data].
  rewrite Nat.eqb_refl. cbn [negb]. unfold apply_along_axis_diag.
  replace (Nat.eqb (N * M) 0) with false by (symmetry; apply Nat.eqb_neq; nia).
  cbn [bind].
  rewrite !(tile_axis1_tab N M) by (rewrite length_map; apply Hm1 || apply Hl1).
  rewrite !(tile_axis0_tab N M) by (rewrite length_map; apply Hm2 || apply Hl2).
  unfold ew3, ew2, stack_matmul.
  repeat rewrite ?bcast_tab, ?map_tab.
  assert (S : forall i j, (i < N)%nat -> (j < M)%nat ->
                map (fmul (Fin 0.5))
                  (bcast fadd (map fexp (nth i (map (map Fin) l1) []))
                     (map fexp (nth j (map (map Fin) l2) [])))
                = map Fin (zip_with (fun a b => 0.5 * (exp a + exp b))
                             (nth i l1 []) (nth j l2 []))).
  { intros i j Hi Hj. rewrite !nth_map_fin.
    pose proof (is_shape_nth N d l1 i Hl1 Hi) as L2.
    pose proof (is_shape_nth M d l2 j Hl2 Hj) as L4.
    rewrite !(map_fin fexp exp) by reflexivity.
    rewrite (bcast_fin fadd Rplus) by (reflexivity || (rewrite !length_map; congruence)).
    rewrite (map_fin (fmul (Fin 0.5)) (Rmult 0.5)) by reflexivity.
    now rewrite map_zip_with, zip_with_map. }
  match goal with
  | |- context [reshape_4_2 N M (tab N M ?g)] =>
      rewrite (tab_ext N M g
                 (fun i j =>
                    [[Fin (Rdot
                             (zip_with Rmult
                                (zip_with Rminus (nth i m1 []) (nth j m2 []))
                                (map (fun s => 1 / s)
                                   (zip_with (fun a b => 0.5 * (exp a + exp b))
                                      (nth i l1 []) (nth j l2 []))))
                             (zip_with Rminus (nth i m1 []) (nth j m2 [])))]]))
  end.
  2:{ intros i j Hi Hj. rewrite S by assumption. rewrite !nth_map_fin.
      pose proof (is_shape_nth N d m1 i Hm1 Hi) as L1.
      pose proof (is_shape_nth N d l1 i Hl1 Hi) as L2.
      pose proof (is_shape_nth M d m2 j Hm2 Hj) as L3.
      pose proof (is_shape_nth M d l2 j Hl2 Hj) as L4.
      rewrite (bcast_fin fsub Rminus) by (reflexivity || congruence).
      rewrite (map_fin (fdiv (Fin 1)) (fun s => 1 / s)).
      - apply quadratic_form_fin.
        + rewrite zip_with_length; congruence.
        + rewrite length_map, zip_with_length; congruence.
      - intros s Hs. apply fdiv_fin.
        pose proof (proj1 (Forall_forall _ _)
                      (averaged_variance_pos (nth i l1 []) (nth j l2 [])) s Hs).
        cbv beta in *. lra. }
  rewrite reshape_4_2_tab. repeat rewrite ?bcast_tab, ?map_tab.
  do 2 f_equal. apply tab_ext. intros i j Hi Hj.
  rewrite S by assumption. rewrite !nth_map_fin.
  rewrite fprod_fin, !fsum_fin. cbn [fexp fmul].
  pose proof (exp_pos (Rsum (nth i l1 []))) as E1.
  pose proof (exp_pos (Rsum (nth j l2 []))) as E2.
  assert (P : 0 < exp (Rsum (nth i l1 [])) * exp (Rsum (nth j l2 [])))
    by now apply Rmult_lt_0_compat.
  pose proof (sqrt_lt_R0 _ P) as Q.
  pose proof (Rprod_pos _ (averaged_variance_pos (nth i l1 []) (nth j l2 []))) as Pp.
  rewrite fsqrt_fin by lra. rewrite fdiv_fin by lra.
  rewrite flog_fin by (now apply Rdiv_lt_0_compat).
  cbn [fmul fadd]. f_equal.
  rewrite Rdot_inverse_weights. reflexivity.
Qed.

Lemma zip_with_comm {A C : Type} (f : A -> A -> C) (xs ys : list A) :
  (forall x y, f x y = f y x) -> zip_with f xs ys = zip_with f ys xs.
Proof.
  intros Hf. revert ys. induction xs as [| x xs IH]; intros [| y ys]; try reflexivity.
  cbn [zip_with]. now rewrite Hf, IH.
Qed.

Lemma weighted_squares_swap (mu1 mu2 sg : list R) :
  zip_with (fun dm s => dm ^ 2 / s) (zip_with Rminus mu1 mu2) sg
  = zip_with (fun dm s => dm ^ 2 / s) (zip_with Rminus mu2 mu1) sg.
Proof.
  revert mu2 sg. induction mu1 as [| x mu1 IH]; intros [| y mu2] [| s sg];
    try reflexivity.
  cbn [zip_with]. rewrite IH. f_equal. unfold Rdiv. ring.
Qed.

(** The distance between two Gaussians does not depend on their order. *)
Lemma bhattacharyya_pair_sym (mu1 lv1 mu2 lv2 : list R) :
  bhattacharyya_pair mu1 lv1 mu2 lv2 = bhattacharyya_pair mu2 lv2 mu1 lv1.
Proof.
  unfold bhattacharyya_pair.
  rewrite (zip_with_comm (fun a b => 0.5 * (exp a + exp b)) lv1 lv2)
    by (intros; ring).
  rewrite (weighted_squares_swap mu1 mu2).
  now rewrite (Rmult_comm (exp (Rsum lv1))).
Qed.

Lemma bhattacharyya_pair_unit_variance (x y : R) :
  bhattacharyya_pair [x] [0] [y] [0] = 0.125 * (x - y) ^ 2.
Proof.
  unfold bhattacharyya_pair, Rsum, Rprod, gsum. cbn [zip_with fold_right].
  replace (0 + 0) with 0 by lra. rewrite exp_0.
  replace (0.5 * (1 + 1)) with 1 by lra.
  replace (1 * 1) with 1 by lra. rewrite sqrt_1.
  replace (1 / 1) with 1 by lra. rewrite ln_1. lra.
Qed.

(** ** C4: symmetry of the Bhattacharyya distance *)

(** C4, as the code has it.  On finite Gaussian batches [G1] (of [N]
    Gaussians) and [G2] (of [M]), and for every [i < N] and [j < M], the call
    on [(G1, G2)] returns an [N] x [M] matrix and the call on [(G2, G1)] an
    [M] x [N] matrix, and the two are transposes of each other: entry [(i, j)]
    of the first is entry [(j, i)] of the second, the distance between the
    [i]-th Gaussian of [G1] and the [j]-th Gaussian of [G2]. *)
Theorem bhattacharyya_dist_mat_transpose_symmetric :
  forall (N M d : nat) (mus1 logvars1 mus2 logvars2 : list (list R)) (i j : nat),
    is_shape N d mus1 -> is_shape N d logvars1 ->
    is_shape M d mus2 -> is_shape M d logvars2 ->
    (i < N)%nat -> (j < M)%nat ->
    exists D12 D21,
      bhattacharyya_dist_mat (of_reals N d mus1) (of_reals N d logvars1)
                             (of_reals M d mus2) (of_reals M d logvars2) = Ok D12
      /\ bhattacharyya_dist_mat (of_reals M d mus2) (of_reals M d logvars2)
                                (of_reals N d mus1) (of_reals N d logvars1) = Ok D21
      /\ shape0 D12 = N /\ shape1 D12 = M /\ shape0 D21 = M /\ shape1 D21 = N
      /\ entry D12 i j = entry D21 j i
      /\ entry D12 i j
         = Fin (bhattacharyya_pair (nth i mus1 []) (nth i logvars1 [])
                                   (nth j mus2 []) (nth j logvars2 [])).
Proof.
  intros N M d mus1 logvars1 mus2 logvars2 i j H1 H2 H3 H4 Hi Hj.
  rewrite (bhattacharyya_dist_mat_reals N M d), (bhattacharyya_dist_mat_reals M N d)
    by (assumption || lia).
  do 2 eexists. split; [reflexivity |]. split; [reflexivity |].
  repeat (split; [reflexivity |]).
  rewrite !entry_of_reals_tab by assumption.
  split; [| reflexivity]. f_equal. apply bhattacharyya_pair_sym.
Qed.

Lemma bhattacharyya_dist_mat_transpose_symmetric_witness :
  exists D12 D21,
    bhattacharyya_dist_mat (of_reals 2 1 [[0]; [1]]) (of_reals 2 1 [[0]; [0]])
                           (of_reals 2 1 [[0]; [5]]) (of_reals 2 1 [[0]; [0]]) = Ok D12
    /\ bhattacharyya_dist_mat (of_reals 2 1 [[0]; [5]]) (of_reals 2 1 [[0]; [0]])
                              (of_reals 2 1 [[0]; [1]]) (of_reals 2 1 [[0]; [0]]) = Ok D21
    /\ shape0 D12 = 2%nat /\ shape1 D12 = 2%nat /\ shape0 D21 = 2%nat /\ shape1 D21 = 2%nat
    /\ entry D12 0 1 = entry D21 1 0
    /\ entry D12 0 1
       = Fin (bhattacharyya_pair (nth 0 [[0]; [1]] []) (nth 0 [[0]; [0]] [])
                                 (nth 1 [[0]; [5]] []) (nth 1 [[0]; [0]] [])).
Proof.
  apply (bhattacharyya_dist_mat_transpose_symmetric 2 2 1
           [[0]; [1]] [[0]; [0]] [[0]; [5]] [[0]; [0]] 0 1);
    try lia; (split; [reflexivity | repeat constructor]).
Defined.

(** C4, as stated, fails: for the unit-variance batches with means [0, 1]
    and [0, 5], entry [(0, 1)] is 3.125 in one order of the arguments and
    0.125 in the other. *)
Lemma bhattacharyya_dist_mat_swap_differs :
  exists D12 D21,
    bhattacharyya_dist_mat (of_reals 2 1 [[0]; [1]]) (of_reals 2 1 [[0]; [0]])
                           (of_reals 2 1 [[0]; [5]]) (of_reals 2 1 [[0]; [0]]) = Ok D12
    /\ bhattacharyya_dist_mat (of_reals 2 1 [[0]; [5]]) (of_reals 2 1 [[0]; [0]])
                              (of_reals 2 1 [[0]; [1]]) (of_reals 2 1 [[0]; [0]]) = Ok D21
    /\ entry D12 0 1 = Fin 3.125
    /\ entry D21 0 1 = Fin 0.125
    /\ entry D12 0 1 <> entry D21 0 1.
Proof.
  rewrite !(bhattacharyya_dist_mat_reals 2 2 1)
    by (try lia; (split; [reflexivity | repeat constructor])).
  do 2 eexists. split; [reflexivity |]. split; [reflexivity |].
  rewrite !entry_of_reals_tab by lia. cbn [nth].
  rewrite !bhattacharyya_pair_unit_variance.
  split; [f_equal; lra |]. split; [f_equal; lra |].
  intros H. injection H. lra.
Qed.

(* ================================================================= *)
(** ** The conditional-density matrix *)

Lemma nth_map_rows {A B : Type} (f : A -> B) (rows : list (list A)) (j : nat) :
  nth j (map (map f) rows) [] = map f (nth j rows []).
Proof. exact (map_nth (map f) rows [] j). Qed.

Lemma nth_map_lt {A B : Type} (f : A -> B) (l : list A) (j : nat) (d : B) (d' : A) :
  (j < length l)%nat -> nth j (map f l) d = f (nth j l d').
Proof.
  intros H. rewrite (nth_indep _ d (f d')) by now rewrite length_map.
  apply map_nth.
Qed.

Lemma bcast_column_row {A B C : Type} (F : A -> B -> C) (xs : list A) (ys : list B) :
  bcast (bcast F) (map (fun x => [x]) xs) [ys] = map (fun x => map (F x) ys) xs.
Proof.
  rewrite bcast_singleton_r, map_map. apply map_ext. intros x. reflexivity.
Qed.

Lemma outer_as_tab {A B C : Type} (F : A -> B -> C) (xs : list A) (ys : list B)
    (dx : A) (dy : B) :
  map (fun x => map (F x) ys) xs
  = tab (length xs) (length ys) (fun i j => F (nth i xs dx) (nth j ys dy)).
Proof.
  unfold tab. rewrite (list_as_tab xs dx) at 1. rewrite map_map.
  apply map_ext. intros i. rewrite (list_as_tab ys dy) at 1. now rewrite map_map.
Qed.

(** A table against one row of per-column values, stretched along the rows. *)
Lemma bcast_tab_row {A B C : Type} (F : A -> B -> C) (n m : nat)
    (g : nat -> nat -> A) (ys : list B) (dy : B) :
  length ys = m ->
  bcast (bcast F) (tab n m g) [ys] = tab n m (fun i j => F (g i j) (nth j ys dy)).
Proof.
  intros <-. rewrite bcast_singleton_r. unfold tab. rewrite map_map.
  apply map_ext. intros i.
  transitivity (bcast F (map (fun j => g i j) (seq 0 (length ys)))
                  (map (fun j => nth j ys dy) (seq 0 (length ys)))).
  - now rewrite <- (list_as_tab ys dy).
  - apply bcast_diag.
Qed.

Lemma bcast_fdiv_fin (a b : list R) :
  Forall (fun y => y <> 0) b -> length a = length b ->
  bcast fdiv (map Fin a) (map Fin b) = map Fin (zip_with Rdiv a b).
Proof.
  intros Hb H. rewrite bcast_same_length by now rewrite !length_map.
  rewrite zip_with_map. revert a H.
  induction Hb as [| y b Hy _ IH]; intros [| x a] H; try discriminate; try reflexivity.
  cbn [zip_with map]. rewrite fdiv_fin by assumption.
  rewrite IH by (now injection H). reflexivity.
Qed.

Lemma normalization_factor_fin (d : nat) :
  fpow (Fin (2 * PI)) (fdiv (of_nat d) (Fin 2)) = Fin (Rpower (2 * PI) (INR d / 2)).
Proof.
  unfold of_nat. rewrite fdiv_fin by lra. apply fpow_fin.
  pose proof PI_RGT_0. lra.
Qed.

Lemma gaussian_density_pos (u mu lv : list R) : 0 < gaussian_density u mu lv.
Proof.
  unfold gaussian_density. apply Rdiv_lt_0_compat; [apply exp_pos |].
  unfold Rpower. apply exp_pos.
Qed.

(** On finite values the density matrix is finite, with entry [(i, j)] the
    density of the [j]-th Gaussian at the [i]-th sampled point. *)
Lemma p_ui_cond_xj_reals (B d : nat) (mus logvars u : list (list R)) :
  is_shape B d mus -> is_shape B d logvars -> is_shape B d u ->
  p_ui_cond_xj (mk_batch (of_reals B d mus) (of_reals B d logvars) (of_reals B d u))
  = map (map Fin)
      (tab B B (fun i j => gaussian_density (nth i u []) (nth j mus []) (nth j logvars []))).
Proof.
  intros Hm Hl Hu. unfold p_ui_cond_xj, of_reals.
  cbn [enc_mus enc_logvars sampled_u shape0 shape1 data].
  rewrite normalization_factor_fin. unfold ew3, ew2.
  rewrite bcast_column_row.
  rewrite (outer_as_tab _ _ _ [] []), !length_map, (proj1 Hu), (proj1 Hm).
  rewrite (bcast_tab_row _ B B _ _ []) by (now rewrite !length_map; apply Hl).
  rewrite map_tab.
  rewrite (bcast_tab_row _ B B _ _ NaN) by (now rewrite !length_map; apply Hl).
  rewrite !map_tab. apply tab_ext. intros i j Hi Hj.
  pose proof (is_shape_nth B d u i Hu Hi) as L1.
  pose proof (is_shape_nth B d mus j Hm Hj) as L2.
  pose proof (is_shape_nth B d logvars j Hl Hj) as L3.
  rewrite !nth_map_rows.
  rewrite !map_map, (nth_map_lt _ logvars j NaN []) by (rewrite (proj1 Hl); assumption).
  rewrite (bcast_fin fsub Rminus) by (reflexivity || congruence).
  rewrite (map_ext (fun x : R => fexp (fdiv (Fin x) (Fin 2))) (fun x => Fin (exp (x / 2))))
    by (intros x; rewrite fdiv_fin by lra; reflexivity).
  rewrite <- (map_map (fun x => exp (x / 2)) Fin).
  rewrite bcast_fdiv_fin.
  - rewrite (map_fin (fun x => fmul x x) (fun z => z * z)) by reflexivity.
    rewrite !fsum_fin. cbn [fneg]. rewrite !fdiv_fin by lra. cbn [fsub fneg fadd fexp].
    rewrite fdiv_fin by (unfold Rpower; pose proof (exp_pos (INR d / 2 * ln (2 * PI))); lra).
    unfold gaussian_density. rewrite L2. reflexivity.
  - apply Forall_forall. intros y Hy. apply in_map_iff in Hy.
    destruct Hy as (x & <- & _). pose proof (exp_pos (x / 2)). lra.
  - rewrite length_map, zip_with_length; congruence.
Qed.

(* ================================================================= *)
(** ** The two estimates of a batch *)

Lemma diag_part_tab (n : nat) (g : nat -> nat -> float64) :
  diag_part (tab n n g) = map (fun i => g i i) (seq 0 n).
Proof.
  unfold diag_part. rewrite (proj1 (is_shape_tab n n g)).
  apply map_ext_in. intros i Hi. apply in_seq in Hi. apply nth_tab; lia.
Qed.

Lemma masked_entry (x : R) (i j : nat) :
  fmul (Fin x) (fsub (Fin 1) (if Nat.eqb i j then Fin 1 else Fin 0))
  = if Nat.eqb i j then Fin 0 else Fin x.
Proof. destruct (Nat.eqb i j); cbn [fsub fneg fadd fmul]; f_equal; lra. Qed.

(** From a finite density matrix on, the two estimates are row means of
    logarithms of ratios; the second one has the diagonal entry zeroed in the
    denominator only. *)
Lemma bounds_of_density_tab (B : nat) (p : nat -> nat -> R) :
  bounds_of_density B (map (map Fin) (tab B B p))
  = (fmean (map (fun i =>
                   flog (fdiv (Fin (p i i))
                           (fmean (map (fun j => Fin (p i j)) (seq 0 B)))))
              (seq 0 B)),
     fmean (map (fun i =>
                   flog (fdiv (Fin (p i i))
                           (fmean (map (fun j => if Nat.eqb i j then Fin 0 else Fin (p i j))
                                     (seq 0 B)))))
              (seq 0 B))).
Proof.
  unfold bounds_of_density, eye, ew2.
  rewrite !map_tab, bcast_tab, diag_part_tab.
  assert (Hmask : tab B B (fun i j =>
                             fmul (Fin (p i j))
                               (fsub (Fin 1) (if Nat.eqb i j then Fin 1 else Fin 0)))
                  = tab B B (fun i j => if Nat.eqb i j then Fin 0 else Fin (p i j)))
    by (apply tab_ext; intros; apply masked_entry).
  rewrite Hmask.
  unfold tab. rewrite !map_map, !bcast_diag, !map_map. reflexivity.
Qed.

(** ** C1: the InfoNCE and leave-one-out estimates of a batch *)

(** C1.  For a batch of finite encoder outputs and sampled points, the matrix
    [p_ui_cond_xj] holds at [(i, j)] the density [p(u_i | x_j)]; the lower
    estimate of [compute_batch] is the mean over the rows [i] of
    [log(p(u_i|x_i) / mean_j p(u_i|x_j))], and the upper estimate is the same
    expression with the diagonal entry replaced by zero inside the row mean of
    the denominator, the numerator [p(u_i|x_i)] being unchanged. *)
Theorem compute_batch_infonce_and_leave_one_out :
  forall (B d : nat) (mus logvars u : list (list R)),
    is_shape B d mus -> is_shape B d logvars -> is_shape B d u ->
    let b := mk_batch (of_reals B d mus) (of_reals B d logvars) (of_reals B d u) in
    let p := fun i j => gaussian_density (nth i u []) (nth j mus []) (nth j logvars []) in
    p_ui_cond_xj b = map (map Fin) (tab B B p)
    /\ fst (compute_batch B b)
       = fmean (map (fun i =>
                       flog (fdiv (Fin (p i i))
                               (fmean (map (fun j => Fin (p i j)) (seq 0 B)))))
                  (seq 0 B))
    /\ snd (compute_batch B b)
       = fmean (map (fun i =>
                       flog (fdiv (Fin (p i i))
                               (fmean (map (fun j => if Nat.eqb i j then Fin 0
                                                     else Fin (p i j))
                                         (seq 0 B)))))
                  (seq 0 B)).
Proof.
  intros B d mus logvars u Hm Hl Hu b p.
  assert (E : p_ui_cond_xj b = map (map Fin) (tab B B p))
    by now apply p_ui_cond_xj_reals.
  split; [exact E |].
  unfold compute_batch. rewrite E, bounds_of_density_tab. split; reflexivity.
Qed.

Lemma compute_batch_infonce_and_leave_one_out_witness :
  let b := mk_batch (of_reals 2 1 [[0]; [1]]) (of_reals 2 1 [[0]; [0]])
                    (of_reals 2 1 [[0.5]; [1.5]]) in
  let p := fun i j =>
             gaussian_density (nth i [[0.5]; [1.5]] []) (nth j [[0]; [1]] [])
                              (nth j [[0]; [0]] []) in
  p_ui_cond_xj b = map (map Fin) (tab 2 2 p)
  /\ fst (compute_batch 2 b)
     = fmean (map (fun i =>
                     flog (fdiv (Fin (p i i))
                             (fmean (map (fun j => Fin (p i j)) (seq 0 2)))))
                (seq 0 2))
  /\ snd (compute_batch 2 b)
     = fmean (map (fun i =>
                     flog (fdiv (Fin (p i i))
                             (fmean (map (fun j => if Nat.eqb i j then Fin 0
                                                   else Fin (p i j))
                                       (seq 0 2)))))
                (seq 0 2)).
Proof.
  apply (compute_batch_infonce_and_leave_one_out 2 1 [[0]; [1]] [[0]; [0]] [[0.5]; [1.5]]);
    (split; [reflexivity | repeat constructor]).
Defined.

(* ================================================================= *)
(** ** Order between the two estimates *)

Lemma fsum_le_ext (xs ys : list float64) :
  Forall2 le_ext xs ys -> le_ext (fsum xs) (fsum ys).
Proof.
  induction 1 as [| x y xs ys Hxy _ IH].
  - exists 0. split; [reflexivity |]. right. exists 0. split; [reflexivity | lra].
  - destruct Hxy as (a & -> & Hy). destruct IH as (s & Hs & Ht).
    unfold fsum, gsum in *. cbn [fold_right]. rewrite Hs.
    exists (a + s). split; [reflexivity |].
    destruct Hy as [-> | (b & -> & Hab)]; destruct Ht as [-> | (t & -> & Hst)];
      cbn [fadd]; try (left; reflexivity).
    right. exists (b + t). split; [reflexivity | lra].
Qed.

Lemma fmean_le_ext (xs ys : list float64) :
  Forall2 le_ext xs ys -> xs <> [] -> le_ext (fmean xs) (fmean ys).
Proof.
  intros H Hne. pose proof (Forall2_length H) as Hl.
  assert (Hn : 0 < INR (length xs)).
  { apply lt_0_INR. destruct xs; [congruence | simpl; lia]. }
  destruct (fsum_le_ext xs ys H) as (s & Hs & Ht).
  unfold fmean, of_nat. rewrite <- Hl, Hs. rewrite fdiv_fin by lra.
  exists (s / INR (length xs)). split; [reflexivity |].
  destruct Ht as [-> | (t & -> & Hst)].
  - left. cbn [fdiv]. now rewrite Rsign_pos.
  - right. rewrite fdiv_fin by lra. eexists. split; [reflexivity |].
    apply Rmult_le_compat_r; [| assumption].
    apply Rlt_le. now apply Rinv_0_lt_compat.
Qed.

Lemma Forall2_map_same {A B C : Type} (P : B -> C -> Prop) (f : A -> B) (g : A -> C) l :
  (forall x, In x l -> P (f x) (g x)) -> Forall2 P (map f l) (map g l).
Proof.
  induction l as [| x l IH]; intros H; cbn [map]; constructor.
  - apply H. now left.
  - apply IH. intros y Hy. apply H. now right.
Qed.

Lemma Rsum_map_le {A : Type} (f g : A -> R) (l : list A) :
  (forall x, In x l -> f x <= g x) -> Rsum (map f l) <= Rsum (map g l).
Proof.
  induction l as [| x l IH]; intros H; unfold Rsum, gsum in *; cbn [map fold_right].
  - lra.
  - pose proof (H x (or_introl eq_refl)).
    assert (fold_right Rplus 0 (map f l) <= fold_right Rplus 0 (map g l))
      by (apply IH; intros y Hy; apply H; now right).
    lra.
Qed.

Lemma Rsum_map_pos {A : Type} (f : A -> R) (l : list A) :
  l <> [] -> (forall x, In x l -> 0 < f x) -> 0 < Rsum (map f l).
Proof.
  intros Hne H. destruct l as [| x l]; [congruence |].
  assert (0 <= Rsum (map f l)).
  { apply Rsum_nonneg. apply Forall_forall. intros y Hy. apply in_map_iff in Hy.
    destruct Hy as (z & <- & Hz). apply Rlt_le, H. now right. }
  pose proof (H x (or_introl eq_refl)).
  unfold Rsum, gsum in *. cbn [map fold_right]. lra.
Qed.

Lemma fmean_map_fin {A : Type} (f : A -> R) (l : list A) :
  l <> [] -> fmean (map (fun x => Fin (f x)) l) = Fin (Rsum (map f l) / INR (length l)).
Proof.
  intros Hne. unfold fmean, of_nat. rewrite fsum_map_fin, length_map.
  apply fdiv_fin. apply not_0_INR. destruct l; [congruence | simpl; lia].
Qed.

(** One row: the ratio with the diagonal left out of the denominator is at
    least the ratio with the full row mean. *)
Lemma row_ratio_le_ext (B : nat) (q : nat -> R) (i : nat) :
  (0 < B)%nat -> (forall j, 0 < q j) ->
  le_ext
    (flog (fdiv (Fin (q i)) (fmean (map (fun j => Fin (q j)) (seq 0 B)))))
    (flog (fdiv (Fin (q i))
             (fmean (map (fun j => if Nat.eqb i j then Fin 0 else Fin (q j)) (seq 0 B))))).
Proof.
  intros HB Hq.
  assert (Hne : seq 0 B <> []) by (destruct B; [lia | discriminate]).
  assert (HB' : 0 < INR B) by (now apply lt_0_INR).
  rewrite (map_ext (fun j => if Nat.eqb i j then Fin 0 else Fin (q j))
             (fun j => Fin (if Nat.eqb i j then 0 else q j)))
    by (intros j; now destruct (Nat.eqb i j)).
  rewrite !fmean_map_fin by assumption. rewrite length_seq.
  set (T := Rsum (map (fun j => q j) (seq 0 B))).
  set (Mi := Rsum (map (fun j => if Nat.eqb i j then 0 else q j) (seq 0 B))).
  assert (HT : 0 < T) by (apply Rsum_map_pos; auto).
  assert (HM0 : 0 <= Mi).
  { apply Rsum_nonneg. apply Forall_forall. intros y Hy. apply in_map_iff in Hy.
    destruct Hy as (j & <- & _). destruct (Nat.eqb i j); [lra |].
    apply Rlt_le, Hq. }
  assert (HMT : Mi <= T).
  { apply Rsum_map_le. intros j _. destruct (Nat.eqb i j); [| lra].
    apply Rlt_le, Hq. }
  pose proof (Hq i) as Hqi.
  assert (HTB : 0 < T / INR B) by (now apply Rdiv_lt_0_compat).
  rewrite fdiv_fin by lra.
  assert (Hlow : 0 < q i / (T / INR B)) by (now apply Rdiv_lt_0_compat).
  rewrite flog_fin by assumption.
  eexists. split; [reflexivity |].
  destruct (Req_dec Mi 0) as [Hz | Hnz].
  - left. rewrite Hz. replace (0 / INR B) with 0 by (unfold Rdiv; ring).
    cbn [fdiv]. rewrite Rsign_zero, (Rsign_pos (q i)) by assumption. reflexivity.
  - right.
    assert (HMB : 0 < Mi / INR B) by (apply Rdiv_lt_0_compat; lra).
    rewrite fdiv_fin by lra.
    assert (Hup : 0 < q i / (Mi / INR B)) by (now apply Rdiv_lt_0_compat).
    rewrite flog_fin by assumption.
    eexists. split; [reflexivity |].
    assert (Hle : q i / (T / INR B) <= q i / (Mi / INR B)).
    { unfold Rdiv at 1 3. apply Rmult_le_compat_l; [lra |].
      apply Rinv_le_contravar; [assumption |].
      unfold Rdiv. apply Rmult_le_compat_r; [| assumption].
      apply Rlt_le. now apply Rinv_0_lt_compat. }
    destruct Hle as [Hlt | Heq].
    + apply Rlt_le. now apply ln_increasing.
    + rewrite Heq. lra.
Qed.

(** The two estimates of a batch of finite values are in order. *)
Lemma compute_batch_le_ext (B : nat) (b : batch) :
  (0 < B)%nat -> finite_batch B b ->
  le_ext (fst (compute_batch B b)) (snd (compute_batch B b)).
Proof.
  intros HB (d & mus & logvars & u & Hm & Hl & Hu & ->).
  unfold compute_batch.
  rewrite (p_ui_cond_xj_reals B d) by assumption.
  rewrite bounds_of_density_tab. cbn [fst snd].
  apply fmean_le_ext.
  - apply Forall2_map_same. intros i _.
    apply (row_ratio_le_ext B
             (fun j => gaussian_density (nth i u []) (nth j mus []) (nth j logvars [])) i HB).
    intros j. apply gaussian_density_pos.
  - destruct B; [lia | discriminate].
Qed.

(** ** Order between the two estimates, whatever the arrays hold *)

Lemma fadd_not_nan (x y : float64) : fadd x y <> NaN -> x <> NaN /\ y <> NaN.
Proof. destruct x, y; cbn [fadd]; intros H; split; congruence. Qed.

Lemma fdiv_not_nan (x y : float64) : fdiv x y <> NaN -> x <> NaN /\ y <> NaN.
Proof. destruct x, y; cbn [fdiv]; intros H; split; congruence. Qed.

Lemma flog_not_nan (x : float64) : flog x <> NaN -> x <> NaN.
Proof. destruct x; cbn [flog]; congruence. Qed.

Lemma fleb_Fin (a b : R) : fleb (Fin a) (Fin b) = true -> a <= b.
Proof. cbn [fleb]. destruct (Rle_dec a b); [trivial | discriminate]. Qed.

Lemma fleb_fadd (x y x' y' : float64) :
  fleb x x' = true -> fleb y y' = true ->
  fadd x y <> NaN -> fadd x' y' <> NaN ->
  fleb (fadd x y) (fadd x' y') = true.
Proof.
  destruct x as [a | | |], y as [b | | |], x' as [a' | | |], y' as [b' | | |];
    cbn [fadd]; intros H1 H2 H3 H4;
    try reflexivity; try congruence; try discriminate.
  apply fleb_Fin in H1. apply fleb_Fin in H2. apply fleb_fin. lra.
Qed.

Lemma fsum_cons (x : float64) (xs : list float64) : fsum (x :: xs) = fadd x (fsum xs).
Proof. reflexivity. Qed.

Lemma fsum_le_or_nan (xs ys : list float64) :
  Forall2 le_or_nan xs ys -> le_or_nan (fsum xs) (fsum ys).
Proof.
  induction 1 as [| x y xs ys Hxy _ IH]; intros Hx Hy.
  - apply fleb_fin. lra.
  - rewrite !fsum_cons in *.
    destruct (fadd_not_nan _ _ Hx) as [Hx1 Hx2].
    destruct (fadd_not_nan _ _ Hy) as [Hy1 Hy2].
    apply fleb_fadd; auto.
Qed.

Lemma fmean_not_nan (xs : list float64) : fmean xs <> NaN -> fsum xs <> NaN /\ xs <> [].
Proof.
  unfold fmean. intros H. split; [apply (fdiv_not_nan _ _ H) |].
  intros ->. apply H. unfold fsum, gsum, of_nat. cbn [fold_right length INR fdiv].
  now rewrite !Rsign_zero.
Qed.

Lemma fleb_fdiv_pos (x y : float64) (c : R) :
  0 < c -> fleb x y = true -> fleb (fdiv x (Fin c)) (fdiv y (Fin c)) = true.
Proof.
  intros Hc. assert (Hc' : c <> 0) by lra.
  destruct x as [a | | |], y as [b | | |]; intros H;
    rewrite ?fdiv_fin by assumption; cbn [fdiv];
    rewrite ?(Rsign_pos c Hc); try reflexivity; try discriminate.
  apply fleb_Fin in H. apply fleb_fin.
  apply Rmult_le_compat_r; [| assumption].
  apply Rlt_le. now apply Rinv_0_lt_compat.
Qed.

Lemma fmean_le_or_nan (xs ys : list float64) :
  Forall2 le_or_nan xs ys -> le_or_nan (fmean xs) (fmean ys).
Proof.
  intros H Hx Hy. pose proof (Forall2_length H) as Hl.
  destruct (fmean_not_nan _ Hx) as [Hx1 Hne].
  destruct (fmean_not_nan _ Hy) as [Hy1 _].
  unfold fmean, of_nat. rewrite <- Hl. apply fleb_fdiv_pos.
  - apply lt_0_INR. destruct xs; [congruence | simpl; lia].
  - now apply fsum_le_or_nan.
Qed.

Lemma dominates_fadd (x y x' y' : float64) :
  dominates x y -> dominates x' y' -> dominates (fadd x x') (fadd y y').
Proof.
  intros [[-> ->] | (s & m & -> & -> & H)] [[-> ->] | (s' & m' & -> & -> & H')];
    cbn [fadd]; try (left; split; reflexivity).
  right. exists (s + s'), (m + m'). repeat split; lra.
Qed.

Lemma dominates_fsum {A : Type} (f g : A -> float64) (l : list A) :
  (forall x, In x l -> dominates (f x) (g x)) ->
  dominates (fsum (map f l)) (fsum (map g l)).
Proof.
  induction l as [| x l IH]; intros H.
  - right. exists 0, 0. repeat split; lra.
  - cbn [map]. rewrite !fsum_cons. apply dominates_fadd.
    + apply H. now left.
    + apply IH. intros y Hy. apply H. now right.
Qed.

Lemma fsum_all_not_nan (l : list float64) :
  fsum l <> NaN -> forall x, In x l -> x <> NaN.
Proof.
  induction l as [| y l IH]; intros H x Hx; [contradiction |].
  rewrite fsum_cons in H. destruct (fadd_not_nan _ _ H) as [H1 H2].
  destruct Hx as [<- | Hx]; [assumption | now apply IH].
Qed.

(** The mask of the leave-one-out estimate leaves an entry off the diagonal
    as it is and turns a finite diagonal entry into zero. *)
Lemma masked_dominated (x : float64) (i j : nat) :
  density_value x -> x <> NaN ->
  fmul x (fsub (Fin 1) (if Nat.eqb i j then Fin 1 else Fin 0)) <> NaN ->
  dominates x (fmul x (fsub (Fin 1) (if Nat.eqb i j then Fin 1 else Fin 0))).
Proof.
  destruct x as [a | | |]; cbn [density_value]; intros Hd Hn Hm;
    try contradiction; try congruence.
  - right. destruct (Nat.eqb i j); cbn [fsub fneg fadd fmul];
      eexists; eexists; (split; [reflexivity |]); (split; [reflexivity |]); lra.
  - left. split; [reflexivity |]. revert Hm.
    destruct (Nat.eqb i j); cbn [fsub fneg fadd fmul].
    + replace (1 + - (1)) with 0 by lra. rewrite Rsign_zero. cbn [inf_of]. congruence.
    + rewrite Rsign_pos by lra. reflexivity.
Qed.

Lemma ratio_le_or_nan (a c : R) (S M : float64) :
  0 <= a -> 0 < c -> dominates S M ->
  le_or_nan (flog (fdiv (Fin a) (fdiv S (Fin c)))) (flog (fdiv (Fin a) (fdiv M (Fin c)))).
Proof.
  intros Ha Hc [[-> ->] | (s & m & -> & -> & Hm & Hs)].
  - intros _ _. cbn [fdiv]. rewrite (Rsign_pos c Hc). cbn [fdiv flog].
    rewrite Rsign_zero. reflexivity.
  - rewrite (fdiv_fin s c), (fdiv_fin m c) by lra. intros HL HU.
    assert (Hinv : 0 < / c) by (now apply Rinv_0_lt_compat).
    assert (Hm' : 0 <= m / c) by (unfold Rdiv; nra).
    assert (Hs' : m / c <= s / c) by (unfold Rdiv; nra).
    set (m' := m / c) in *. set (s' := s / c) in *. clearbody m' s'.
    destruct (Req_dec a 0) as [-> | Hapos].
    + (* numerator zero *)
      destruct (Req_dec s' 0) as [-> | Hs0].
      * exfalso. apply HL. cbn [fdiv]. rewrite !Rsign_zero. reflexivity.
      * rewrite fdiv_fin by assumption.
        replace (0 / s') with 0 by (unfold Rdiv; ring).
        cbn [flog]. rewrite Rsign_zero.
        destruct (flog (fdiv (Fin 0) (Fin m'))); try reflexivity. congruence.
    + assert (Ha' : 0 < a) by lra.
      destruct (Req_dec m' 0) as [-> | Hm0].
      * (* masked mean zero: upper term is +inf *)
        assert (E : flog (fdiv (Fin a) (Fin 0)) = PInf).
        { cbn [fdiv]. rewrite Rsign_zero, (Rsign_pos a Ha'). reflexivity. }
        rewrite E.
        destruct (flog (fdiv (Fin a) (Fin s'))); try reflexivity. congruence.
      * assert (Hmp : 0 < m') by lra. assert (Hsp : 0 < s') by lra.
        rewrite !fdiv_fin by lra.
        assert (0 < a / s') by (now apply Rdiv_lt_0_compat).
        assert (0 < a / m') by (now apply Rdiv_lt_0_compat).
        rewrite !flog_fin by assumption. apply fleb_fin.
        assert (Hle : a / s' <= a / m').
        { unfold Rdiv. apply Rmult_le_compat_l; [lra |].
          now apply Rinv_le_contravar. }
        destruct Hle as [Hlt | Heq]; [apply Rlt_le; now apply ln_increasing |].
        rewrite Heq. lra.
Qed.

(** One row of the density matrix. *)
Lemma row_ratio_le_or_nan (B : nat) (q : nat -> float64) (i : nat) :
  (i < B)%nat -> (forall j, (j < B)%nat -> density_value (q j)) ->
  le_or_nan
    (flog (fdiv (q i) (fmean (map q (seq 0 B)))))
    (flog (fdiv (q i)
             (fmean (map (fun j => fmul (q j)
                                     (fsub (Fin 1) (if Nat.eqb i j then Fin 1 else Fin 0)))
                       (seq 0 B))))).
Proof.
  intros Hi Hq HL HU.
  destruct (fdiv_not_nan _ _ (flog_not_nan _ HL)) as [Hqi HS].
  destruct (fdiv_not_nan _ _ (flog_not_nan _ HU)) as [_ HM].
  destruct (fmean_not_nan _ HS) as [HS' _].
  destruct (fmean_not_nan _ HM) as [HM' _].
  assert (Hrow : forall j, In j (seq 0 B) -> q j <> NaN).
  { intros j Hj. apply (fsum_all_not_nan _ HS'). now apply in_map. }
  assert (Hmask : forall j, In j (seq 0 B) ->
            fmul (q j) (fsub (Fin 1) (if Nat.eqb i j then Fin 1 else Fin 0)) <> NaN).
  { intros j Hj. apply (fsum_all_not_nan _ HM').
    apply (in_map (fun j => fmul (q j)
                              (fsub (Fin 1) (if Nat.eqb i j then Fin 1 else Fin 0)))).
    exact Hj. }
  assert (Hdom : dominates (fsum (map q (seq 0 B)))
                   (fsum (map (fun j => fmul (q j)
                                          (fsub (Fin 1)
                                             (if Nat.eqb i j then Fin 1 else Fin 0)))
                            (seq 0 B)))).
  { apply dominates_fsum. intros j Hj. apply masked_dominated; auto.
    apply Hq. apply in_seq in Hj. lia. }
  (* the diagonal entry is finite: its masked value is not nan *)
  assert (Hfin : exists a, q i = Fin a /\ 0 <= a).
  { assert (Hin : In i (seq 0 B)) by (apply in_seq; lia).
    pose proof (Hmask i Hin) as Hm. pose proof (Hq i Hi) as Hd.
    rewrite Nat.eqb_refl in Hm.
    destruct (q i) as [a | | |]; cbn [density_value] in Hd;
      try contradiction; try congruence.
    - exists a. split; [reflexivity | assumption].
    - exfalso. apply Hm. cbn [fsub fneg fadd fmul].
      replace (1 + - (1)) with 0 by lra. now rewrite Rsign_zero. }
  destruct Hfin as (a & Ea & Ha).
  revert HL HU. unfold fmean, of_nat. rewrite !length_map, length_seq, Ea.
  apply ratio_le_or_nan; [assumption | | assumption].
  apply lt_0_INR. lia.
Qed.

Lemma matrix_as_tab {T : Type} (n m : nat) (p : list (list T)) (d : T) :
  is_shape n m p -> p = tab n m (fun i j => nth j (nth i p []) d).
Proof.
  intros [Hn Hm]. unfold tab. rewrite (list_as_tab p []) at 1. rewrite Hn.
  apply map_ext_in. intros i Hi. apply in_seq in Hi.
  assert (Hl : length (nth i p []) = m).
  { apply (proj1 (Forall_forall _ _) Hm). apply nth_In. lia. }
  rewrite (list_as_tab (nth i p []) d) at 1. now rewrite Hl.
Qed.

(** The two estimates from any square density matrix, row by row. *)
Lemma bounds_of_density_rows (B : nat) (g : nat -> nat -> float64) :
  bounds_of_density B (tab B B g)
  = (fmean (map (fun i => flog (fdiv (g i i) (fmean (map (g i) (seq 0 B))))) (seq 0 B)),
     fmean (map (fun i =>
                   flog (fdiv (g i i)
                           (fmean (map (fun j =>
                                          fmul (g i j)
                                            (fsub (Fin 1)
                                               (if Nat.eqb i j then Fin 1 else Fin 0)))
                                     (seq 0 B)))))
              (seq 0 B))).
Proof.
  unfold bounds_of_density, eye, ew2.
  rewrite !map_tab, bcast_tab, diag_part_tab.
  unfold tab. rewrite !map_map, !bcast_diag, !map_map. reflexivity.
Qed.

(** Whatever a square matrix of density values holds, the leave-one-out
    estimate is not below the InfoNCE estimate unless one of them is [nan]. *)
Lemma bounds_of_density_le_or_nan (B : nat) (p : list (list float64)) :
  is_shape B B p -> Forall (Forall density_value) p ->
  le_or_nan (fst (bounds_of_density B p)) (snd (bounds_of_density B p)).
Proof.
  intros Hs Hd. rewrite (matrix_as_tab B B p NaN Hs) at 1 2.
  rewrite bounds_of_density_rows. cbn [fst snd].
  apply fmean_le_or_nan. apply Forall2_map_same. intros i Hi. apply in_seq in Hi.
  apply (row_ratio_le_or_nan B (fun j => nth j (nth i p []) NaN) i); [lia |].
  intros j Hj.
  assert (Hrow : In (nth i p []) p) by (apply nth_In; rewrite (proj1 Hs); lia).
  pose proof (proj1 (Forall_forall _ _) Hd _ Hrow) as Hr.
  apply (proj1 (Forall_forall _ _) Hr). apply nth_In.
  rewrite (proj1 (Forall_forall _ _) (proj2 Hs) _ Hrow). assumption.
Qed.

Lemma density_value_entry (x : float64) (c : R) :
  0 < c -> density_value (fdiv (fexp x) (Fin c)).
Proof.
  intros Hc. destruct x as [a | | |]; cbn [fexp fdiv]; rewrite ?(Rsign_pos c Hc);
    cbn [density_value]; trivial.
  - pose proof (exp_pos a). apply Rlt_le. now apply Rdiv_lt_0_compat.
  - unfold Rdiv. lra.
Qed.

(** The density matrix of a batch of shape [B, d] is a [B] x [B] matrix of
    density values, whatever the three arrays hold. *)
Lemma p_ui_cond_xj_density_values (B d : nat) (b : batch) :
  batch_of_shape B d b ->
  is_shape B B (p_ui_cond_xj b) /\ Forall (Forall density_value) (p_ui_cond_xj b).
Proof.
  intros ((_ & Hd & Hm) & (_ & _ & Hl) & (_ & _ & Hu)).
  assert (Hc : 0 < Rpower (2 * PI) (INR d / 2)) by (unfold Rpower; apply exp_pos).
  split.
  - unfold p_ui_cond_xj. unfold ew3, ew2.
    rewrite bcast_column_row.
    rewrite (outer_as_tab _ _ _ [] []), (proj1 Hu), (proj1 Hm).
    rewrite (bcast_tab_row _ B B _ _ []) by (now rewrite !length_map; apply Hl).
    rewrite map_tab.
    rewrite (bcast_tab_row _ B B _ _ NaN) by (now rewrite !length_map; apply Hl).
    rewrite !map_tab. apply is_shape_tab.
  - unfold p_ui_cond_xj. rewrite Hd, normalization_factor_fin.
    set (E := ew2 fsub _ _). clearbody E.
    apply Forall_forall. intros r Hr. apply in_map_iff in Hr.
    destruct Hr as (r' & <- & Hr). apply in_map_iff in Hr.
    destruct Hr as (r'' & <- & _).
    apply Forall_forall. intros x Hx. apply in_map_iff in Hx.
    destruct Hx as (y & <- & Hy). apply in_map_iff in Hy.
    destruct Hy as (z & <- & _). now apply density_value_entry.
Qed.

Lemma compute_batch_le_or_nan (B d : nat) (b : batch) :
  batch_of_shape B d b ->
  le_or_nan (fst (compute_batch B b)) (snd (compute_batch B b)).
Proof.
  intros Hb. destruct (p_ui_cond_xj_density_values B d b Hb) as [Hs Hd].
  unfold compute_batch. now apply bounds_of_density_le_or_nan.
Qed.

(** ** C2: the upper estimate is not below the lower estimate *)

(** C2, as the code has it.  For a batch of shape [B, d], whatever
    floating-point values the means, the log-variances and the sampled points
    take, the leave-one-out estimate of [compute_batch] is greater than or
    equal to its InfoNCE estimate unless one of the two is [nan].
    Consequently the pair returned by [estimate_mi_sandwich_bounds] has its
    upper bound greater than or equal to its lower bound unless one of the two
    is [nan]. *)
Theorem loo_upper_not_below_infonce_lower :
  (forall (B d : nat) (b : batch),
      batch_of_shape B d b ->
      fst (compute_batch B b) <> NaN -> snd (compute_batch B b) <> NaN ->
      fleb (fst (compute_batch B b)) (snd (compute_batch B b)) = true)
  /\ (forall (outcome : nat -> batch) (B K : nat) (lower upper : float64),
         (forall k, (k < K)%nat -> exists d, batch_of_shape B d (outcome k)) ->
         estimate_mi_sandwich_bounds outcome B K = Ok (lower, upper) ->
         lower <> NaN -> upper <> NaN -> fleb lower upper = true).
Proof.
  split.
  - intros B d b Hb. exact (compute_batch_le_or_nan B d b Hb).
  - intros outcome B K lower upper Hshape. unfold estimate_mi_sandwich_bounds.
    destruct (Nat.eqb B 0); [discriminate |].
    destruct (map (fun k => compute_batch B (outcome k)) (seq 0 K)) as [| e es] eqn:E;
      [discriminate |].
    intros H. injection H as <- <-.
    change (fst e :: map fst es) with (map fst (e :: es)).
    change (snd e :: map snd es) with (map snd (e :: es)).
    rewrite <- E, !map_map.
    apply fmean_le_or_nan. apply Forall2_map_same. intros k Hk. apply in_seq in Hk.
    destruct (Hshape k) as (d & Hd); [lia |].
    exact (compute_batch_le_or_nan B d (outcome k) Hd).
Qed.

Lemma loo_upper_not_below_infonce_lower_witness :
  let b := mk_batch (of_reals 2 1 [[0]; [1]]) (of_reals 2 1 [[0]; [0]])
                    (of_reals 2 1 [[0.5]; [1.5]]) in
  fleb (fst (compute_batch 2 b)) (snd (compute_batch 2 b)) = true.
Proof.
  intros b.
  assert (Hfin : le_ext (fst (compute_batch 2 b)) (snd (compute_batch 2 b))).
  { apply compute_batch_le_ext; [lia |].
    exists 1%nat, [[0]; [1]], [[0]; [0]], [[0.5]; [1.5]].
    repeat split; repeat constructor. }
  apply (proj1 loo_upper_not_below_infonce_lower 2%nat 1%nat b).
  - repeat split; repeat constructor.
  - destruct Hfin as (a & -> & _). discriminate.
  - destruct Hfin as (a & _ & [-> | (c & -> & _)]); discriminate.
Defined.

(** C2, as stated, fails.  With the finite log-variance 2000 the standard
    deviation [exp(1000)] is beyond the binary64 range, and the point the
    sampler returns is infinite.  On that batch no density is positive, both
    estimates are [nan], and [upper >= lower] is false. *)
Lemma infinite_sample_gives_nan_estimates :
  let b := mk_batch (of_reals 1 1 [[0]]) (of_reals 1 1 [[2000]]) (mk_array 1 1 [[PInf]]) in
  compute_batch 1 b = (NaN, NaN)
  /\ fleb (fst (compute_batch 1 b)) (snd (compute_batch 1 b)) = false
  /\ estimate_mi_sandwich_bounds (fun _ => b) 1 1 = Ok (NaN, NaN).
Proof.
  intros b.
  assert (P : p_ui_cond_xj b = [[Fin 0]]).
  { unfold b, p_ui_cond_xj, of_reals, ew3, ew2.
    cbn [enc_mus enc_logvars sampled_u shape0 shape1 data map bcast].
    rewrite normalization_factor_fin.
    unfold fsum, gsum. cbn [fold_right map fsub fneg fadd fexp].
    rewrite !fdiv_fin by lra. cbn [fexp fdiv].
    rewrite Rsign_pos by apply exp_pos.
    cbn [fmul fadd fneg fdiv]. rewrite Rsign_pos by lra.
    cbn [fsub fneg fadd fexp].
    rewrite fdiv_fin by (unfold Rpower; pose proof (exp_pos (INR 1 / 2 * ln (2 * PI))); lra).
    do 3 f_equal. unfold Rdiv. ring. }
  assert (E : compute_batch 1 b = (NaN, NaN)).
  { unfold compute_batch. rewrite P.
    unfold bounds_of_density, diag_part, eye, tab, ew2, fmean, fsum, gsum, of_nat.
    cbn [length seq map nth bcast Nat.eqb fold_right fsub fneg fadd fmul INR].
    replace (0 + 0) with 0 by lra. rewrite (fdiv_fin 0 1) by lra.
    replace (0 / 1) with 0 by lra.
    replace (0 * (1 + - (1)) + 0) with 0 by lra. rewrite (fdiv_fin 0 1) by lra.
    replace (0 / 1) with 0 by lra.
    cbn [fdiv]. rewrite !Rsign_zero. reflexivity. }
  split; [exact E |]. split; [now rewrite E |].
  unfold estimate_mi_sandwich_bounds. cbn [Nat.eqb seq map]. rewrite E.
  cbn [fst snd]. reflexivity.
Qed.

(* ================================================================= *)
(** ** Evaluations on small inputs *)

(** The Chebyshev distance between [(1, 5)] and [(4, 1)] is [max(3, 4) = 4]. *)
Example pairwise_linf_distance_example :
  pairwise_linf_distance (of_reals 1 2 [[1; 5]]) (of_reals 1 2 [[4; 1]])
  = Ok (of_reals 1 1 [[4]]).
Proof.
  rewrite (pairwise_linf_distance_reals 1 1 2)
    by (try lia; (split; [reflexivity | repeat constructor])).
  do 2 f_equal. cbn [map]. do 3 f_equal.
  unfold linf_dist. cbn [zip_with Rmax_list].
  replace (1 - 4) with (- (3)) by lra. rewrite Rabs_Ropp.
  rewrite !Rabs_pos_eq by lra. replace (5 - 1) with 4 by lra. apply Rmax_right. lra.
Qed.

(** With a single example per batch the masked row mean is zero, and the
    leave-one-out estimate is [+inf]. *)
Example single_example_batch_upper_is_infinite :
  snd (compute_batch 1 (mk_batch (of_reals 1 1 [[0]]) (of_reals 1 1 [[0]])
                                 (of_reals 1 1 [[1]])))
  = PInf.
Proof.
  unfold compute_batch.
  rewrite (p_ui_cond_xj_reals 1 1) by (split; [reflexivity | repeat constructor]).
  rewrite bounds_of_density_tab.
  cbn [snd seq map Nat.eqb nth]. unfold fmean, fsum, gsum, of_nat.
  cbn [fold_right length fadd INR].
  replace (0 + 0) with 0 by lra. rewrite (fdiv_fin 0 1) by lra.
  replace (0 / 1) with 0 by lra.
  cbn [fdiv]. rewrite Rsign_zero, Rsign_pos by apply gaussian_density_pos.
  cbn [inf_of flog fadd fdiv]. now rewrite Rsign_pos by lra.
Qed.

(* ================================================================= *)
(** ** Further properties of the distance kernels *)

Lemma l1_dist_nonneg (a b : list R) : 0 <= l1_dist a b.
Proof.
  unfold l1_dist. apply Rsum_nonneg. revert b.
  induction a as [| x a IH]; intros [| y b]; cbn [zip_with]; constructor.
  - apply Rabs_pos.
  - apply IH.
Qed.

Lemma Rmax_list_bounds (l : list R) :
  Forall (fun x => 0 <= x) l -> 0 <= Rmax_list l /\ Rmax_list l <= Rsum l.
Proof.
  induction 1 as [| x l Hx Hl IH]; [unfold Rsum, gsum; simpl; lra |].
  pose proof (Rsum_nonneg l Hl) as Hs.
  destruct l as [| y l].
  - unfold Rsum, gsum. simpl. lra.
  - change (Rmax_list (x :: y :: l)) with (Rmax x (Rmax_list (y :: l))).
    change (Rsum (x :: y :: l)) with (x + Rsum (y :: l)).
    destruct IH as [IH1 IH2].
    split.
    + apply Rle_trans with x; [assumption | apply Rmax_l].
    + apply Rmax_lub; lra.
Qed.

Lemma abs_differences_nonneg (a b : list R) :
  Forall (fun x => 0 <= x) (zip_with (fun x y => Rabs (x - y)) a b).
Proof.
  revert b. induction a as [| x a IH]; intros [| y b]; cbn [zip_with]; constructor.
  - apply Rabs_pos.
  - apply IH.
Qed.

Lemma linf_dist_bounds (a b : list R) : 0 <= linf_dist a b <= l1_dist a b.
Proof. apply Rmax_list_bounds, abs_differences_nonneg. Qed.

(** X1.  On finite point sets [A] ([N] x [d]) and [B] ([M] x [d]),
    [pairwise_l1_distance] returns the [N] x [M] array whose entry [(i, j)] is
    the Manhattan distance [sum_k |A[i,k] - B[j,k]|], a non-negative number. *)
Theorem pairwise_l1_distance_is_manhattan :
  forall (N M d : nat) (A B : list (list R)),
    is_shape N d A -> is_shape M d B ->
    exists D,
      pairwise_l1_distance (of_reals N d A) (of_reals M d B) = Ok D
      /\ shape0 D = N /\ shape1 D = M /\ wf_array D
      /\ forall i j, (i < N)%nat -> (j < M)%nat ->
           entry D i j
           = Fin (Rsum (zip_with (fun x y => Rabs (x - y)) (nth i A []) (nth j B [])))
           /\ 0 <= Rsum (zip_with (fun x y => Rabs (x - y)) (nth i A []) (nth j B [])).
Proof.
  intros N M d A B HA HB.
  rewrite (pairwise_l1_distance_reals N M d) by assumption.
  eexists. split; [reflexivity |]. split; [reflexivity |]. split; [reflexivity |].
  split.
  - unfold wf_array, of_reals. simpl. apply is_shape_map.
    destruct HA as [<- _], HB as [<- _]. apply is_shape_outer.
  - intros i j Hi Hj. split.
    + apply (entry_of_reals_outer l1_dist);
        [now rewrite (proj1 HA) | now rewrite (proj1 HB)].
    + apply l1_dist_nonneg.
Qed.

Lemma pairwise_l1_distance_is_manhattan_witness :
  exists D,
    pairwise_l1_distance (of_reals 1 2 [[1; 5]]) (of_reals 2 2 [[4; 1]; [0; 0]]) = Ok D
    /\ shape0 D = 1%nat /\ shape1 D = 2%nat /\ wf_array D
    /\ forall i j, (i < 1)%nat -> (j < 2)%nat ->
         entry D i j
         = Fin (Rsum (zip_with (fun x y => Rabs (x - y))
                        (nth i [[1; 5]] []) (nth j [[4; 1]; [0; 0]] [])))
         /\ 0 <= Rsum (zip_with (fun x y => Rabs (x - y))
                         (nth i [[1; 5]] []) (nth j [[4; 1]; [0; 0]] [])).
Proof.
  apply (pairwise_l1_distance_is_manhattan 1 2 2 [[1; 5]] [[4; 1]; [0; 0]]).
  - split; [reflexivity | repeat constructor].
  - split; [reflexivity | repeat constructor].
Defined.

(** X2.  On finite point sets of a common positive dimension,
    [pairwise_linf_distance] returns the [N] x [M] array whose entry [(i, j)]
    is the Chebyshev distance [max_k |A[i,k] - B[j,k]|]; it lies between zero
    and the Manhattan distance of the same two points. *)
Theorem pairwise_linf_distance_is_chebyshev :
  forall (N M d : nat) (A B : list (list R)),
    is_shape N d A -> is_shape M d B -> (0 < d)%nat ->
    exists D,
      pairwise_linf_distance (of_reals N d A) (of_reals M d B) = Ok D
      /\ shape0 D = N /\ shape1 D = M /\ wf_array D
      /\ forall i j, (i < N)%nat -> (j < M)%nat ->
           entry D i j
           = Fin (Rmax_list (zip_with (fun x y => Rabs (x - y)) (nth i A []) (nth j B [])))
           /\ 0 <= Rmax_list (zip_with (fun x y => Rabs (x - y)) (nth i A []) (nth j B []))
              <= l1_dist (nth i A []) (nth j B []).
Proof.
  intros N M d A B HA HB Hd.
  rewrite (pairwise_linf_distance_reals N M d) by assumption.
  eexists. split; [reflexivity |]. split; [reflexivity |]. split; [reflexivity |].
  split.
  - unfold wf_array, of_reals. simpl. apply is_shape_map.
    destruct HA as [<- _], HB as [<- _]. apply is_shape_outer.
  - intros i j Hi Hj. split.
    + apply (entry_of_reals_outer linf_dist);
        [now rewrite (proj1 HA) | now rewrite (proj1 HB)].
    + apply linf_dist_bounds.
Qed.

Lemma pairwise_linf_distance_is_chebyshev_witness :
  exists D,
    pairwise_linf_distance (of_reals 1 2 [[1; 5]]) (of_reals 1 2 [[4; 1]]) = Ok D
    /\ shape0 D = 1%nat /\ shape1 D = 1%nat /\ wf_array D
    /\ forall i j, (i < 1)%nat -> (j < 1)%nat ->
         entry D i j
         = Fin (Rmax_list (zip_with (fun x y => Rabs (x - y))
                             (nth i [[1; 5]] []) (nth j [[4; 1]] [])))
         /\ 0 <= Rmax_list (zip_with (fun x y => Rabs (x - y))
                              (nth i [[1; 5]] []) (nth j [[4; 1]] []))
            <= l1_dist (nth i [[1; 5]] []) (nth j [[4; 1]] []).
Proof.
  apply (pairwise_linf_distance_is_chebyshev 1 1 2 [[1; 5]] [[4; 1]]).
  - split; [reflexivity | repeat constructor].
  - split; [reflexivity | repeat constructor].
  - lia.
Defined.

Lemma row_of_length_one {T : Type} (r : list T) (dflt : T) :
  length r = 1%nat -> r = [nth 0 r dflt].
Proof. destruct r as [| x [| y r]]; try discriminate. reflexivity. Qed.

Lemma broadcastable_one_r (d : nat) : broadcastable d 1 = true.
Proof. unfold broadcastable. cbn. apply orb_true_r. Qed.

(** X3.  The L1 kernel does not insist on equal embedding dimensions: a second
    point set with a single coordinate per point is broadcast against all [d]
    coordinates of the first, and entry [(i, j)] is [sum_k |A[i,k] - B[j,0]|].
    The squared-L2 kernel refuses the same arguments when [d] is not one. *)
Theorem pairwise_l1_distance_broadcasts_single_coordinate :
  forall (N M d : nat) (A B : list (list R)),
    is_shape N d A -> is_shape M 1 B ->
    (exists D,
        pairwise_l1_distance (of_reals N d A) (of_reals M 1 B) = Ok D
        /\ shape0 D = N /\ shape1 D = M
        /\ forall i j, (i < N)%nat -> (j < M)%nat ->
             entry D i j
             = Fin (Rsum (map (fun x => Rabs (x - nth 0 (nth j B []) 0)) (nth i A []))))
    /\ (d <> 1%nat ->
        pairwise_l2_distance (of_reals N d A) (of_reals M 1 B) = Raise TensorFlowError).
Proof.
  intros N M d A B HA HB. split.
  - unfold pairwise_l1_distance, of_reals. cbn [shape0 shape1 data].
    rewrite broadcastable_one_r.
    eexists. split; [reflexivity |]. split; [reflexivity |]. split; [reflexivity |].
    intros i j Hi Hj. unfold entry. cbn [data].
    replace M with (length (map (map Fin) B)) at 1 by (rewrite length_map; apply HB).
    rewrite tiled_difference, map_outer.
    rewrite (nth_outer _ _ _ i j [] [])
      by (rewrite length_map; rewrite ?(proj1 HA), ?(proj1 HB); assumption).
    rewrite !nth_map_fin.
    rewrite (row_of_length_one (nth j B []) 0) at 1 by now apply (is_shape_nth M 1 B j).
    cbn [map]. rewrite bcast_singleton_r, !map_map. cbn [fsub fneg fadd fabs].
    now rewrite fsum_map_fin.
  - intros Hd. unfold pairwise_l2_distance, of_reals. cbn [shape0 shape1 data].
    now replace (Nat.eqb d 1) with false by (symmetry; now apply Nat.eqb_neq).
Qed.

Lemma pairwise_l1_distance_broadcasts_single_coordinate_witness :
  (exists D,
      pairwise_l1_distance (of_reals 1 2 [[1; 5]]) (of_reals 1 1 [[3]]) = Ok D
      /\ shape0 D = 1%nat /\ shape1 D = 1%nat
      /\ forall i j, (i < 1)%nat -> (j < 1)%nat ->
           entry D i j
           = Fin (Rsum (map (fun x => Rabs (x - nth 0 (nth j [[3]] []) 0))
                          (nth i [[1; 5]] []))))
  /\ (2%nat <> 1%nat ->
      pairwise_l2_distance (of_reals 1 2 [[1; 5]]) (of_reals 1 1 [[3]])
      = Raise TensorFlowError).
Proof.
  apply (pairwise_l1_distance_broadcasts_single_coordinate 1 1 2 [[1; 5]] [[3]]).
  - split; [reflexivity | repeat constructor].
  - split; [reflexivity | repeat constructor].
Defined.

(* ================================================================= *)
(** ** Further properties of the similarities *)

Lemma abs_differences_sym (a b : list R) :
  zip_with (fun x y => Rabs (x - y)) a b = zip_with (fun x y => Rabs (x - y)) b a.
Proof.
  revert b. induction a as [| x a IH]; intros [| y b]; try reflexivity.
  cbn [zip_with]. now rewrite IH, Rabs_minus_sym.
Qed.

Lemma sq_dist_sym (a b : list R) : sq_dist a b = sq_dist b a.
Proof.
  unfold sq_dist. f_equal. revert b.
  induction a as [| x a IH]; intros [| y b]; try reflexivity.
  cbn [zip_with]. rewrite IH. f_equal. ring.
Qed.

Lemma point_distance_sym (k : distance_kind) (a b : list R) :
  point_distance k a b = point_distance k b a.
Proof.
  destruct k; cbn [point_distance].
  - apply sq_dist_sym.
  - now rewrite sq_dist_sym.
  - unfold l1_dist. now rewrite abs_differences_sym.
  - unfold linf_dist. now rewrite abs_differences_sym.
Qed.

Lemma point_distance_nonneg (k : distance_kind) (a b : list R) :
  0 <= point_distance k a b.
Proof.
  destruct k; cbn [point_distance].
  - apply sq_dist_nonneg.
  - apply sqrt_pos.
  - apply l1_dist_nonneg.
  - apply linf_dist_bounds.
Qed.

Lemma abs_differences_self (a : list R) :
  zip_with (fun x y => Rabs (x - y)) a a = map (fun _ => 0) a.
Proof.
  induction a as [| x a IH]; [reflexivity |].
  cbn [zip_with map]. rewrite IH. f_equal.
  replace (x - x) with 0 by ring. apply Rabs_R0.
Qed.

Lemma Rsum_zeros {T : Type} (l : list T) : Rsum (map (fun _ => 0) l) = 0.
Proof.
  induction l as [| x l IH]; [reflexivity |].
  unfold Rsum, gsum in *. cbn [map fold_right]. rewrite IH. lra.
Qed.

Lemma Rmax_list_zeros {T : Type} (l : list T) : Rmax_list (map (fun _ => 0) l) = 0.
Proof.
  induction l as [| x l IH]; [reflexivity |].
  destruct l as [| y l]; [reflexivity |].
  change (Rmax 0 (Rmax_list (map (fun _ : T => 0) (y :: l))) = 0).
  rewrite IH. apply Rmax_left. lra.
Qed.

Lemma sq_dist_self (a : list R) : sq_dist a a = 0.
Proof.
  unfold sq_dist. induction a as [| x a IH]; [reflexivity |].
  unfold Rsum, gsum in *. cbn [zip_with fold_right]. rewrite IH. ring.
Qed.

(** The entry of a distance-based similarity, for any temperature. *)
Lemma similarity_entries (k : distance_kind) (N M d : nat) (A B : list (list R))
    (t : float64) :
  is_shape N d A -> is_shape M d B -> (k = linf -> (0 < d)%nat) ->
  exists S,
    get_scaled_similarity (of_reals N d A) (of_reals M d B) (kind_name k) t = Ok S
    /\ shape0 S = N /\ shape1 S = M
    /\ forall i j, (i < N)%nat -> (j < M)%nat ->
         entry S i j = fdiv (Fin (- point_distance k (nth i A []) (nth j B []))) t.
Proof.
  intros HA HB Hd.
  rewrite get_scaled_similarity_distance.
  rewrite (distance_kernel_reals k N M d) by assumption.
  cbn [bind]. eexists. split; [reflexivity |].
  split; [reflexivity |]. split; [reflexivity |].
  intros i j Hi Hj. unfold entry, map_array, of_reals. cbn [data].
  rewrite (map_outer Fin), map_outer.
  now rewrite (nth_outer _ A B i j [] []) by (rewrite ?(proj1 HA), ?(proj1 HB); assumption).
Qed.

(** X4.  A distance-based similarity is symmetric under exchanging the two
    point sets: entry [(i, j)] of the similarity of [(A, B)] is entry [(j, i)]
    of the similarity of [(B, A)], for every temperature. *)
Theorem get_scaled_similarity_transpose_symmetric :
  forall (k : distance_kind) (N M d : nat) (A B : list (list R)) (t : float64),
    is_shape N d A -> is_shape M d B -> (k = linf -> (0 < d)%nat) ->
    exists S12 S21,
      get_scaled_similarity (of_reals N d A) (of_reals M d B) (kind_name k) t = Ok S12
      /\ get_scaled_similarity (of_reals M d B) (of_reals N d A) (kind_name k) t = Ok S21
      /\ forall i j, (i < N)%nat -> (j < M)%nat -> entry S12 i j = entry S21 j i.
Proof.
  intros k N M d A B t HA HB Hd.
  destruct (similarity_entries k N M d A B t HA HB Hd) as (S12 & E12 & _ & _ & H12).
  destruct (similarity_entries k M N d B A t HB HA Hd) as (S21 & E21 & _ & _ & H21).
  exists S12, S21. split; [assumption |]. split; [assumption |].
  intros i j Hi Hj. rewrite H12, H21 by assumption.
  now rewrite point_distance_sym.
Qed.

Lemma get_scaled_similarity_transpose_symmetric_witness :
  exists S12 S21,
    get_scaled_similarity (of_reals 1 2 [[1; 5]]) (of_reals 2 2 [[4; 1]; [0; 0]])
      (kind_name l2) (Fin 2) = Ok S12
    /\ get_scaled_similarity (of_reals 2 2 [[4; 1]; [0; 0]]) (of_reals 1 2 [[1; 5]])
         (kind_name l2) (Fin 2) = Ok S21
    /\ forall i j, (i < 1)%nat -> (j < 2)%nat -> entry S12 i j = entry S21 j i.
Proof.
  apply (get_scaled_similarity_transpose_symmetric l2 1 2 2
           [[1; 5]] [[4; 1]; [0; 0]] (Fin 2)).
  - split; [reflexivity | repeat constructor].
  - split; [reflexivity | repeat constructor].
  - intros H. discriminate H.
Defined.

(** X5.  With a positive temperature no entry of a distance-based similarity
    is greater than zero. *)
Theorem distance_similarity_is_never_positive :
  forall (k : distance_kind) (N M d : nat) (A B : list (list R)) (t : R),
    is_shape N d A -> is_shape M d B -> (k = linf -> (0 < d)%nat) -> 0 < t ->
    exists S,
      get_scaled_similarity (of_reals N d A) (of_reals M d B) (kind_name k) (Fin t) = Ok S
      /\ forall i j, (i < N)%nat -> (j < M)%nat -> fgtb (entry S i j) (Fin 0) = false.
Proof.
  intros k N M d A B t HA HB Hd Ht.
  destruct (similarity_entries k N M d A B (Fin t) HA HB Hd) as (S & E & _ & _ & H).
  exists S. split; [assumption |]. intros i j Hi Hj.
  rewrite H by assumption. rewrite fdiv_fin by lra. cbn [fgtb].
  pose proof (point_distance_nonneg k (nth i A []) (nth j B [])) as Hp.
  pose proof (Rinv_0_lt_compat t Ht) as Hi'.
  destruct (Rlt_dec 0 (- point_distance k (nth i A []) (nth j B []) / t)) as [Hlt |];
    [| reflexivity].
  exfalso. unfold Rdiv in Hlt. nra.
Qed.

Lemma distance_similarity_is_never_positive_witness :
  exists S,
    get_scaled_similarity (of_reals 1 2 [[1; 5]]) (of_reals 1 2 [[4; 1]])
      (kind_name l1) (Fin 2) = Ok S
    /\ forall i j, (i < 1)%nat -> (j < 1)%nat -> fgtb (entry S i j) (Fin 0) = false.
Proof.
  apply (distance_similarity_is_never_positive l1 1 1 2 [[1; 5]] [[4; 1]] 2).
  - split; [reflexivity | repeat constructor].
  - split; [reflexivity | repeat constructor].
  - intros H. discriminate H.
  - lra.
Defined.

Lemma point_distance_self (k : distance_kind) (a : list R) :
  point_distance k a a = match k with l2 => sqrt 1e-9 | _ => 0 end.
Proof.
  destruct k; cbn [point_distance].
  - apply sq_dist_self.
  - rewrite sq_dist_self. f_equal. lra.
  - unfold l1_dist. rewrite abs_differences_self. apply Rsum_zeros.
  - unfold linf_dist. rewrite abs_differences_self. apply Rmax_list_zeros.
Qed.

(** X6.  For the kinds l1 and linf, which subtract the coordinates before
    anything else, the similarity of a point with itself is zero, whatever the
    non-zero temperature. *)
Theorem self_similarity :
  forall (k : distance_kind) (N d : nat) (A : list (list R)) (t : R),
    k = l1 \/ k = linf ->
    is_shape N d A -> (k = linf -> (0 < d)%nat) -> t <> 0 ->
    exists S,
      get_scaled_similarity (of_reals N d A) (of_reals N d A) (kind_name k) (Fin t) = Ok S
      /\ forall i, (i < N)%nat -> entry S i i = Fin 0.
Proof.
  intros k N d A t Hk HA Hd Ht.
  destruct (similarity_entries k N N d A A (Fin t) HA HA Hd) as (S & E & _ & _ & H).
  exists S. split; [assumption |].
  intros i Hi. rewrite H by assumption. rewrite fdiv_fin by assumption.
  rewrite point_distance_self. destruct Hk as [-> | ->]; f_equal; unfold Rdiv; ring.
Qed.

Lemma self_similarity_witness :
  exists S,
    get_scaled_similarity (of_reals 1 2 [[3; 4]]) (of_reals 1 2 [[3; 4]])
      (kind_name linf) (Fin 2) = Ok S
    /\ forall i, (i < 1)%nat -> entry S i i = Fin 0.
Proof.
  apply (self_similarity linf 1 2 [[3; 4]] 2).
  - now right.
  - split; [reflexivity | repeat constructor].
  - intros _. lia.
  - lra.
Defined.

Local Open Scope string_scope.

(** X8.  A similarity type outside the five implemented ones raises a
    [ValueError] that carries the offending string, whatever the arrays and the
    temperature are: the type is looked at before anything is computed. *)
Theorem unknown_similarity_type_raises :
  forall (e1 e2 : array) (kind : String.string) (t : float64),
    ~ In kind supported_kinds ->
    get_scaled_similarity e1 e2 kind t
    = Raise (ValueError ["Similarity type not implemented: "; kind]).
Proof.
  intros e1 e2 kind t H. unfold supported_kinds in H. cbn [In] in H.
  unfold get_scaled_similarity.
  repeat match goal with
         | |- context [String.eqb kind ?s] =>
             let E := fresh "E" in
             destruct (String.eqb kind s) eqn:E;
             [apply String.eqb_eq in E; exfalso; apply H; subst kind; tauto |]
         end.
  reflexivity.
Qed.

Lemma unknown_similarity_type_raises_witness :
  get_scaled_similarity (of_reals 1 1 [[0]]) (of_reals 1 2 [[1; 2]]) "L2" (Fin 0)
  = Raise (ValueError ["Similarity type not implemented: "; "L2"]).
Proof.
  apply unknown_similarity_type_raises.
  unfold supported_kinds. cbn [In].
  intros [H | [H | [H | [H | [H | []]]]]]; discriminate H.
Defined.

Local Close Scope string_scope.

(** X9.  No supported kind returns a matrix for point sets whose embedding
    dimensions differ and are both different from one: the call raises the
    TensorFlow error of the matrix product or of the broadcast, whatever the
    temperature. *)
Theorem get_scaled_similarity_rejects_dimension_mismatch :
  forall (e1 e2 : array) (kind : String.string) (t : float64),
    In kind supported_kinds ->
    shape1 e1 <> shape1 e2 -> shape1 e1 <> 1%nat -> shape1 e2 <> 1%nat ->
    get_scaled_similarity e1 e2 kind t = Raise TensorFlowError.
Proof.
  intros e1 e2 kind t Hk Hd H1 H2. unfold get_scaled_similarity.
  apply Nat.eqb_neq in Hd. apply Nat.eqb_neq in H1. apply Nat.eqb_neq in H2.
  unfold supported_kinds in Hk. simpl in Hk.
  destruct Hk as [<- | [<- | [<- | [<- | [<- | []]]]]];
    cbn [String.eqb Ascii.eqb Bool.eqb];
    unfold pairwise_l2_distance, pairwise_l1_distance, pairwise_linf_distance,
      broadcastable, linalg_normalize; cbn [shape0 shape1 data];
    rewrite ?Hd, ?H1, ?H2; reflexivity.
Qed.

Lemma get_scaled_similarity_rejects_dimension_mismatch_witness :
  get_scaled_similarity (of_reals 1 2 [[0; 0]]) (of_reals 1 3 [[0; 0; 0]])
    (kind_name l1) (Fin 1)
  = Raise TensorFlowError.
Proof.
  apply get_scaled_similarity_rejects_dimension_mismatch.
  - unfold supported_kinds. simpl. tauto.
  - simpl. lia.
  - simpl. lia.
  - simpl. lia.
Defined.

(* ================================================================= *)
(** ** Further properties of the divergences *)

(** X14.  When one of the two batches is empty (and the embedding dimensions
    agree), both divergences raise the [ValueError] of [np.apply_along_axis]
    instead of returning an empty matrix. *)
Theorem divergences_raise_on_empty_batch :
  forall mus1 logvars1 mus2 logvars2 : array,
    shape1 mus2 = shape1 mus1 -> shape0 mus1 = 0%nat \/ shape0 mus2 = 0%nat ->
    bhattacharyya_dist_mat mus1 logvars1 mus2 logvars2
    = Raise (ValueError [apply_along_axis_message])
    /\ kl_divergence_mat mus1 logvars1 mus2 logvars2
       = Raise (ValueError [apply_along_axis_message]).
Proof.
  intros mus1 logvars1 mus2 logvars2 Hd Hz.
  apply divergences_refuse_empty_batches; [assumption |].
  destruct Hz as [-> | ->]; lia.
Qed.

Lemma divergences_raise_on_empty_batch_witness :
  bhattacharyya_dist_mat (of_reals 0 2 []) (of_reals 0 2 [])
                         (of_reals 1 2 [[0; 0]]) (of_reals 1 2 [[0; 0]])
  = Raise (ValueError [apply_along_axis_message])
  /\ kl_divergence_mat (of_reals 0 2 []) (of_reals 0 2 [])
                       (of_reals 1 2 [[0; 0]]) (of_reals 1 2 [[0; 0]])
     = Raise (ValueError [apply_along_axis_message]).
Proof.
  apply divergences_raise_on_empty_batch; [reflexivity | left; reflexivity].
Defined.

(* ================================================================= *)
(** ** Further properties of the sandwich bounds *)

(** X16.  With a batch of a single example whose density at the sampled point
    is a positive number, the InfoNCE estimate is zero and the leave-one-out
    estimate is [+inf]: the only entry of the density matrix is divided by
    itself for the first and by zero for the second. *)
Theorem single_example_batch_bounds :
  forall (b : batch) (p : R),
    p_ui_cond_xj b = [[Fin p]] -> 0 < p -> compute_batch 1 b = (Fin 0, PInf).
Proof.
  intros b p E Hp. unfold compute_batch. rewrite E.
  change [[Fin p]] with (map (map Fin) (tab 1 1 (fun _ _ => p))).
  rewrite (bounds_of_density_tab 1 (fun _ _ => p)).
  cbn [seq map Nat.eqb]. unfold fmean, fsum, gsum, of_nat.
  cbn [fold_right length fadd INR].
  f_equal.
  - rewrite (fdiv_fin (p + 0) 1) by lra.
    rewrite fdiv_fin by lra.
    replace (p / ((p + 0) / 1)) with 1 by (field; lra).
    rewrite flog_fin by lra. rewrite ln_1. cbn [fadd].
    rewrite fdiv_fin by lra. f_equal. lra.
  - replace (0 + 0) with 0 by lra. rewrite (fdiv_fin 0 1) by lra.
    replace (0 / 1) with 0 by lra.
    cbn [fdiv]. rewrite Rsign_zero, Rsign_pos by assumption.
    cbn [inf_of flog fadd fdiv]. now rewrite Rsign_pos by lra.
Qed.

Lemma single_example_batch_bounds_witness :
  compute_batch 1 (mk_batch (of_reals 1 2 [[0; 1]]) (of_reals 1 2 [[0; -1]])
                            (of_reals 1 2 [[0.5; 2]]))
  = (Fin 0, PInf).
Proof.
  apply (single_example_batch_bounds _ (gaussian_density [0.5; 2] [0; 1] [0; -1])).
  - rewrite (p_ui_cond_xj_reals 1 2) by (split; [reflexivity | repeat constructor]).
    reflexivity.
  - apply gaussian_density_pos.
Defined.

Lemma fmean_singleton (x : float64) : fmean [x] = x.
Proof.
  unfold fmean, fsum, gsum, of_nat. cbn [fold_right length INR].
  destruct x as [a | | |]; cbn [fadd fdiv].
  - rewrite Rsign_pos by lra. f_equal. field.
  - now rewrite Rsign_pos by lra.
  - now rewrite Rsign_pos by lra.
  - reflexivity.
Qed.

(** X19.  [estimate_mi_sandwich_bounds] over zero batches raises the
    [ValueError] of [np.stack]; over a single batch it returns the pair of
    [compute_batch] unchanged, whatever values that pair holds. *)
Theorem estimate_over_zero_and_one_batch :
  forall (outcome : nat -> batch) (B : nat),
    (0 < B)%nat ->
    estimate_mi_sandwich_bounds outcome B 0 = Raise (ValueError [stack_message])
    /\ estimate_mi_sandwich_bounds outcome B 1 = Ok (compute_batch B (outcome 0%nat)).
Proof.
  intros outcome B HB. unfold estimate_mi_sandwich_bounds.
  replace (Nat.eqb B 0) with false by (symmetry; apply Nat.eqb_neq; lia).
  split; [reflexivity |].
  cbn [seq map]. rewrite !fmean_singleton.
  now destruct (compute_batch B (outcome 0%nat)).
Qed.

Lemma estimate_over_zero_and_one_batch_witness :
  estimate_mi_sandwich_bounds
    (fun _ => mk_batch (of_reals 1 1 [[0]]) (of_reals 1 1 [[0]]) (of_reals 1 1 [[1]]))
    1 0
  = Raise (ValueError [stack_message])
  /\ estimate_mi_sandwich_bounds
       (fun _ => mk_batch (of_reals 1 1 [[0]]) (of_reals 1 1 [[0]]) (of_reals 1 1 [[1]]))
       1 1
     = Ok (compute_batch 1
             (mk_batch (of_reals 1 1 [[0]]) (of_reals 1 1 [[0]]) (of_reals 1 1 [[1]]))).
Proof.
  apply (estimate_over_zero_and_one_batch
           (fun _ => mk_batch (of_reals 1 1 [[0]]) (of_reals 1 1 [[0]])
                              (of_reals 1 1 [[1]])) 1).
  lia.
Defined.

(* ================================================================= *)
(** ** Entropy in bits of a probability array *)

Lemma ln_le_mono (x y : R) : 0 < x -> x <= y -> ln x <= ln y.
Proof.
  intros Hx [H | <-]; [| lra]. apply Rlt_le. now apply ln_increasing.
Qed.

Lemma ln_2_pos : 0 < ln 2.
Proof. pose proof ln_lt_2. lra. Qed.

Lemma flog2_fin (a : R) : 0 < a -> flog2 (Fin a) = Fin (Rlog2 a).
Proof. intros H. cbn [flog2]. now rewrite Rsign_pos. Qed.

Lemma Rlog2_1 : Rlog2 1 = 0.
Proof. unfold Rlog2. rewrite ln_1. unfold Rdiv. ring. Qed.

Lemma fgtb_fin_zero (p : R) :
  fgtb (Fin p) (Fin 0) = if Rlt_dec 0 p then true else false.
Proof. reflexivity. Qed.

Lemma zip_with_self_map {A B C : Type} (f : A -> B -> C) (g : A -> B) (l : list A) :
  zip_with f l (map g l) = map (fun x => f x (g x)) l.
Proof. induction l as [| x l IH]; [reflexivity |]. cbn [map zip_with]. now rewrite IH. Qed.

(** The entropy of a finite array is the Shannon entropy of its positive
    entries. *)
Lemma compute_entropy_bits_reals (l : list R) :
  compute_entropy_bits (map Fin l) = Fin (shannon_bits (positive_entries l)).
Proof.
  unfold compute_entropy_bits.
  rewrite (map_fin (fun p => if fgtb p (Fin 0) then p else Fin 1)
             (fun p => if Rlt_dec 0 p then p else 1))
    by (intros p _; rewrite fgtb_fin_zero; now destruct (Rlt_dec 0 p)).
  rewrite (map_fin flog2 Rlog2).
  - rewrite (bcast_fin fmul Rmult) by (reflexivity || now rewrite !length_map).
    rewrite fsum_fin. cbn [fneg]. f_equal. unfold shannon_bits. f_equal.
    rewrite zip_with_map_r, zip_with_self_map. unfold positive_entries.
    induction l as [| p l IH]; [reflexivity |].
    cbn [map filter]. destruct (Rlt_dec 0 p) as [Hp | Hp].
    + unfold Rsum, gsum in *. cbn [map fold_right]. now rewrite IH.
    + unfold Rsum, gsum in *. cbn [fold_right]. rewrite IH, Rlog2_1. ring.
  - intros x Hx. apply in_map_iff in Hx. destruct Hx as (p & <- & _).
    apply flog2_fin. destruct (Rlt_dec 0 p); lra.
Qed.

Lemma positive_entries_idem (l : list R) :
  positive_entries (positive_entries l) = positive_entries l.
Proof.
  unfold positive_entries. induction l as [| p l IH]; [reflexivity |].
  cbn [filter]. destruct (Rlt_dec 0 p) as [Hp | Hp]; [| exact IH].
  cbn [filter]. destruct (Rlt_dec 0 p); [| contradiction]. now rewrite IH.
Qed.

(** X20.  [compute_entropy_bits] never fails on a finite array: entries that
    are zero or negative contribute exactly zero, so the result is the finite
    number [- sum p log2 p] over the positive entries, the same as for the array
    with the other entries removed. *)
Theorem compute_entropy_bits_ignores_nonpositive_entries :
  forall l : list R,
    compute_entropy_bits (map Fin l)
    = Fin (- Rsum (map (fun p => p * (ln p / ln 2)) (positive_entries l)))
    /\ compute_entropy_bits (map Fin l)
       = compute_entropy_bits (map Fin (positive_entries l)).
Proof.
  intros l. split.
  - apply compute_entropy_bits_reals.
  - now rewrite !compute_entropy_bits_reals, positive_entries_idem.
Qed.

Lemma Rsum_repeat (c : R) (n : nat) : Rsum (repeat c n) = INR n * c.
Proof.
  induction n as [| n IH]; [unfold Rsum, gsum; simpl; lra |].
  rewrite S_INR. unfold Rsum, gsum in *. cbn [repeat fold_right]. rewrite IH. lra.
Qed.

Lemma Rlog2_inv (x : R) : 0 < x -> Rlog2 (1 / x) = - Rlog2 x.
Proof.
  intros H. unfold Rlog2. replace (1 / x) with (/ x) by (field; lra).
  rewrite ln_Rinv by assumption. unfold Rdiv. ring.
Qed.

Lemma shannon_bits_uniform (n : nat) :
  (0 < n)%nat -> shannon_bits (repeat (1 / INR n) n) = Rlog2 (INR n).
Proof.
  intros Hn. assert (Hn' : 0 < INR n) by (now apply lt_0_INR).
  unfold shannon_bits. rewrite map_repeat, Rsum_repeat, Rlog2_inv by assumption.
  field. lra.
Qed.

Lemma positive_entries_all (l : list R) :
  Forall (fun p => 0 < p) l -> positive_entries l = l.
Proof.
  unfold positive_entries. induction 1 as [| p l Hp _ IH]; [reflexivity |].
  cbn [filter]. destruct (Rlt_dec 0 p); [| contradiction]. now rewrite IH.
Qed.

(** X21.  The entropy of the uniform distribution over [n >= 1] outcomes is
    [log2 n] bits. *)
Theorem compute_entropy_bits_uniform :
  forall n : nat,
    (0 < n)%nat ->
    compute_entropy_bits (repeat (Fin (1 / INR n)) n) = Fin (ln (INR n) / ln 2).
Proof.
  intros n Hn. assert (Hn' : 0 < INR n) by (now apply lt_0_INR).
  rewrite <- map_repeat, compute_entropy_bits_reals.
  rewrite positive_entries_all.
  - f_equal. now apply shannon_bits_uniform.
  - apply Forall_forall. intros p Hp. apply repeat_spec in Hp. subst p.
    apply Rdiv_lt_0_compat; lra.
Qed.

Lemma compute_entropy_bits_uniform_witness :
  compute_entropy_bits (repeat (Fin (1 / INR 4)) 4) = Fin (ln (INR 4) / ln 2).
Proof. apply compute_entropy_bits_uniform. lia. Defined.

Lemma member_le_Rsum (l : list R) (p : R) :
  Forall (fun x => 0 <= x) l -> In p l -> p <= Rsum l.
Proof.
  induction 1 as [| x l Hx Hl IH]; intros Hp; [contradiction |].
  pose proof (Rsum_nonneg l Hl) as Hs.
  change (Rsum (x :: l)) with (x + Rsum l).
  destruct Hp as [-> | Hp]; [lra |]. specialize (IH Hp). lra.
Qed.

Lemma self_information_nonneg (p : R) : 0 < p -> p <= 1 -> 0 <= - (p * Rlog2 p).
Proof.
  intros H0 H1. pose proof ln_2_pos as L2.
  assert (ln p <= 0) by (rewrite <- ln_1; now apply ln_le_mono).
  unfold Rlog2, Rdiv. pose proof (Rinv_0_lt_compat _ L2) as L2'.
  assert (Q : ln p * / ln 2 <= 0) by nra.
  set (t := ln p * / ln 2) in *. nra.
Qed.

Lemma shannon_bits_nonneg (l : list R) :
  Forall (fun p => p <= 1) l -> 0 <= shannon_bits (positive_entries l).
Proof.
  unfold shannon_bits, positive_entries.
  induction 1 as [| p l Hp _ IH]; [unfold Rsum, gsum; simpl; lra |].
  cbn [filter]. destruct (Rlt_dec 0 p) as [H0 | H0]; [| exact IH].
  pose proof (self_information_nonneg p H0 Hp).
  unfold Rsum, gsum in *. cbn [map fold_right]. lra.
Qed.

Lemma ln_le_minus_one (x : R) : 0 < x -> ln x <= x - 1.
Proof.
  intros H. pose proof (exp_ineq1_le (ln x)) as E. rewrite exp_ln in E by assumption. lra.
Qed.

(** Gibbs' inequality, one entry at a time. *)
Lemma gibbs_term (p n : R) :
  0 < p -> 0 < n -> - (p * ln p) <= p * ln n + (/ n - p).
Proof.
  intros Hp Hn.
  assert (Hq : 0 < / (n * p)) by (apply Rinv_0_lt_compat; nra).
  pose proof (ln_le_minus_one _ Hq) as L.
  rewrite ln_Rinv, ln_mult in L by nra.
  assert (E : p * (/ (n * p) - 1) = / n - p) by (field; lra).
  nra.
Qed.

Lemma gibbs_sum (n : R) (l : list R) :
  0 < n -> Forall (fun p => 0 <= p) l ->
  - Rsum (map (fun p => p * ln p) (positive_entries l))
  <= ln n * Rsum l + (INR (length l) / n - Rsum l).
Proof.
  intros Hn. unfold positive_entries.
  induction 1 as [| p l Hp _ IH]; [unfold Rsum, gsum; simpl; lra |].
  change (length (p :: l)) with (S (length l)). rewrite S_INR.
  change (Rsum (p :: l)) with (p + Rsum l).
  pose proof (Rinv_0_lt_compat n Hn) as Hi.
  cbn [filter]. destruct (Rlt_dec 0 p) as [H0 | H0].
  - pose proof (gibbs_term p n H0 Hn).
    unfold Rsum, gsum, Rdiv in *. cbn [map fold_right]. lra.
  - assert (p = 0) by lra. subst p. unfold Rdiv in *. lra.
Qed.

Lemma probability_entropy_bounds (l : list R) :
  Forall (fun p => 0 <= p) l -> Rsum l = 1 ->
  0 <= shannon_bits (positive_entries l) <= ln (INR (length l)) / ln 2.
Proof.
  intros Hpos Hsum. split.
  - apply shannon_bits_nonneg. apply Forall_forall. intros p Hp.
    rewrite <- Hsum. now apply member_le_Rsum.
  - assert (Hlen : (0 < length l)%nat).
    { destruct l; [| simpl; lia]. unfold Rsum, gsum in Hsum. simpl in Hsum. lra. }
    assert (Hn : 0 < INR (length l)) by (now apply lt_0_INR).
    pose proof (gibbs_sum (INR (length l)) l Hn Hpos) as G.
    rewrite Hsum in G.
    replace (INR (length l) / INR (length l)) with 1 in G by (field; lra).
    pose proof ln_2_pos as L2. pose proof (Rinv_0_lt_compat _ L2) as L2'.
    unfold shannon_bits.
    assert (E : Rsum (map (fun p => p * Rlog2 p) (positive_entries l))
                = Rsum (map (fun p => p * ln p) (positive_entries l)) / ln 2).
    { clear. induction (positive_entries l) as [| p q IH];
        [unfold Rsum, gsum; simpl; unfold Rdiv; ring |].
      unfold Rsum, gsum, Rlog2 in *. cbn [map fold_right]. rewrite IH.
      unfold Rdiv. ring. }
    rewrite E. unfold Rdiv in *. nra.
Qed.



(* ================================================================= *)
(** ** Entropy of a sequence of symbols *)

Lemma insert_count_total (x : Z) (acc : list (Z * nat)) :
  counts_total (insert_count x acc) = S (counts_total acc).
Proof.
  unfold counts_total. induction acc as [| [y c] acc IH]; [reflexivity |].
  cbn [insert_count]. destruct (Z.ltb x y); [reflexivity |].
  destruct (Z.eqb x y); cbn [map snd fold_right] in *; [lia |].
  rewrite IH. lia.
Qed.

Lemma insert_count_positive (x : Z) (acc : list (Z * nat)) :
  Forall (fun vc => (1 <= snd vc)%nat) acc ->
  Forall (fun vc => (1 <= snd vc)%nat) (insert_count x acc).
Proof.
  induction 1 as [| [y c] acc Hc Hacc IH]; [repeat constructor |].
  cbn [insert_count]. destruct (Z.ltb x y); [repeat constructor; assumption |].
  destruct (Z.eqb x y); constructor; cbn [snd] in *; try assumption; lia.
Qed.

Lemma unique_counts_total (seq : list Z) : counts_total (unique_counts seq) = length seq.
Proof.
  induction seq as [| x seq IH]; [reflexivity |].
  cbn [unique_counts fold_right length]. fold (unique_counts seq).
  now rewrite insert_count_total, IH.
Qed.

Lemma unique_counts_positive (seq : list Z) :
  Forall (fun vc => (1 <= snd vc)%nat) (unique_counts seq).
Proof.
  induction seq as [| x seq IH]; [constructor |].
  cbn [unique_counts fold_right]. fold (unique_counts seq).
  now apply insert_count_positive.
Qed.

Lemma insert_count_length (x : Z) (acc : list (Z * nat)) :
  (length acc <= length (insert_count x acc) <= S (length acc))%nat.
Proof.
  induction acc as [| [y c] acc IH]; [simpl; lia |].
  cbn [insert_count]. destruct (Z.ltb x y); [simpl; lia |].
  destruct (Z.eqb x y); simpl in *; lia.
Qed.

Lemma unique_counts_length (seq : list Z) :
  (length (unique_counts seq) <= length seq)%nat
  /\ (seq <> [] -> (0 < length (unique_counts seq))%nat).
Proof.
  induction seq as [| x seq [IH1 IH2]]; [split; [simpl; lia | congruence] |].
  cbn [unique_counts fold_right length]. fold (unique_counts seq).
  pose proof (insert_count_length x (unique_counts seq)) as L.
  split; [lia |]. intros _.
  destruct (unique_counts seq) as [| [y c] acc]; [simpl; lia |].
  cbn [length] in *. lia.
Qed.

Lemma insert_count_comm (x y : Z) (acc : list (Z * nat)) :
  insert_count x (insert_count y acc) = insert_count y (insert_count x acc).
Proof.
  induction acc as [| [z c] acc IH].
  - cbn [insert_count].
    destruct (Z.ltb_spec x y), (Z.ltb_spec y x), (Z.eqb_spec x y), (Z.eqb_spec y x);
      try lia; try reflexivity; subst; reflexivity.
  - cbn [insert_count].
    destruct (Z.ltb_spec y z), (Z.ltb_spec x z), (Z.eqb_spec y z), (Z.eqb_spec x z);
      cbn [insert_count];
      repeat match goal with
             | |- context [Z.ltb ?a ?b] => destruct (Z.ltb_spec a b); try lia
             | |- context [Z.eqb ?a ?b] => destruct (Z.eqb_spec a b); try lia
             end;
      subst; try reflexivity; try lia.
    now rewrite IH.
Qed.

Lemma unique_counts_permutation (s1 s2 : list Z) :
  Permutation s1 s2 -> unique_counts s1 = unique_counts s2.
Proof.
  induction 1 as [| x l l' _ IH | x y l | l l' l'' _ IH1 _ IH2].
  - reflexivity.
  - unfold unique_counts in *. cbn [fold_right]. now rewrite IH.
  - unfold unique_counts. cbn [fold_right]. apply insert_count_comm.
  - now rewrite IH1.
Qed.

Lemma unique_counts_repeat (x : Z) (n : nat) :
  unique_counts (repeat x (S n)) = [(x, S n)].
Proof.
  induction n as [| n IH]; [reflexivity |].
  change (repeat x (S (S n))) with (x :: repeat x (S n)).
  unfold unique_counts in *. cbn [fold_right]. rewrite IH.
  cbn [insert_count]. now rewrite Z.ltb_irrefl, Z.eqb_refl.
Qed.

(** The float array of frequencies that [compute_entropy] builds. *)
Lemma frequencies_fin (seq : list Z) :
  seq <> [] ->
  map (fun c => fdiv (of_nat c) (of_nat (counts_total (unique_counts seq))))
    (map snd (unique_counts seq))
  = map Fin (frequencies seq).
Proof.
  intros Hne. rewrite unique_counts_total. unfold frequencies, of_nat.
  rewrite !map_map. apply map_ext. intros vc. apply fdiv_fin.
  apply not_0_INR. destruct seq; [congruence | simpl; lia].
Qed.

Lemma frequencies_positive (seq : list Z) :
  seq <> [] -> Forall (fun p => 0 < p) (frequencies seq).
Proof.
  intros Hne. unfold frequencies. apply Forall_forall. intros p Hp.
  apply in_map_iff in Hp. destruct Hp as (vc & <- & Hvc).
  pose proof (proj1 (Forall_forall _ _) (unique_counts_positive seq) vc Hvc) as Hc.
  cbv beta in Hc.
  apply Rdiv_lt_0_compat; apply lt_0_INR; [lia |].
  destruct seq; [congruence | simpl; lia].
Qed.

Lemma frequencies_sum (seq : list Z) : seq <> [] -> Rsum (frequencies seq) = 1.
Proof.
  intros Hne.
  assert (Hn : INR (length seq) <> 0)
    by (apply not_0_INR; destruct seq; [congruence | simpl; lia]).
  assert (E : forall (l : list (Z * nat)) (n : R),
             Rsum (map (fun vc => INR (snd vc) / n) l) = INR (counts_total l) / n).
  { intros l n. unfold counts_total.
    induction l as [| vc l IH]; [unfold Rsum, gsum; simpl; unfold Rdiv; ring |].
    unfold Rsum, gsum in *. cbn [map fold_right]. rewrite IH, plus_INR.
    unfold Rdiv. ring. }
  unfold frequencies. rewrite E, unique_counts_total. now field.
Qed.

(** [compute_entropy] is [compute_entropy_bits] of the frequencies. *)
Lemma compute_entropy_as_bits (seq : list Z) :
  seq <> [] -> compute_entropy seq = compute_entropy_bits (map Fin (frequencies seq)).
Proof.
  intros Hne. unfold compute_entropy. fold (counts_total (unique_counts seq)).
  rewrite (frequencies_fin seq Hne). unfold compute_entropy_bits.
  do 3 f_equal. rewrite !map_map. apply map_ext_in. intros p Hp.
  pose proof (proj1 (Forall_forall _ _) (frequencies_positive seq Hne) p Hp) as H0.
  rewrite fgtb_fin_zero. destruct (Rlt_dec 0 p); [reflexivity | contradiction].
Qed.

(** X23.  For a non-empty sequence of int64 symbols, [compute_entropy] is
    [compute_entropy_bits] applied to the relative frequencies of the distinct
    symbols; these are positive and sum to one, and the entropy is not
    negative. *)
Theorem compute_entropy_of_frequencies :
  forall seq : list Z,
    Forall int64_symbol seq -> seq <> [] ->
    compute_entropy seq = compute_entropy_bits (map Fin (frequencies seq))
    /\ Forall (fun p => 0 < p) (frequencies seq)
    /\ Rsum (frequencies seq) = 1
    /\ fleb (Fin 0) (compute_entropy seq) = true.
Proof.
  intros seq _ Hne.
  split; [now apply compute_entropy_as_bits |].
  split; [now apply frequencies_positive |].
  split; [now apply frequencies_sum |].
  rewrite compute_entropy_as_bits, compute_entropy_bits_reals by assumption.
  apply fleb_fin.
  apply (probability_entropy_bounds (frequencies seq)); [| now apply frequencies_sum].
  eapply Forall_impl; [| now apply frequencies_positive].
  intros p Hp. cbv beta in *. lra.
Qed.

Lemma compute_entropy_of_frequencies_witness :
  compute_entropy [1; 2; 1]%Z = compute_entropy_bits (map Fin (frequencies [1; 2; 1]%Z))
  /\ Forall (fun p => 0 < p) (frequencies [1; 2; 1]%Z)
  /\ Rsum (frequencies [1; 2; 1]%Z) = 1
  /\ fleb (Fin 0) (compute_entropy [1; 2; 1]%Z) = true.
Proof.
  apply compute_entropy_of_frequencies.
  - repeat constructor; unfold int64_symbol; lia.
  - discriminate.
Defined.

(** X24.  The entropy of the empty sequence and of a sequence that repeats a
    single symbol is zero. *)
Theorem compute_entropy_of_constant_sequence :
  compute_entropy [] = Fin 0
  /\ forall (x : Z) (n : nat), compute_entropy (repeat x n) = Fin 0.
Proof.
  assert (E0 : compute_entropy [] = Fin 0).
  { unfold compute_entropy, fsum, gsum. cbn. f_equal. ring. }
  split; [exact E0 |]. intros x [| n]; [exact E0 |].
  unfold compute_entropy. rewrite unique_counts_repeat.
  cbn [map snd fold_right bcast]. rewrite Nat.add_0_r. unfold of_nat.
  assert (Hn : INR (S n) <> 0) by (apply not_0_INR; lia).
  rewrite fdiv_fin by assumption.
  replace (INR (S n) / INR (S n)) with 1 by (now field).
  rewrite flog2_fin by lra. rewrite Rlog2_1.
  unfold fsum, gsum. cbn. f_equal. ring.
Qed.

(** X25.  [compute_entropy] depends only on how often each symbol occurs, not
    on the order of the sequence. *)
Theorem compute_entropy_permutation_invariant :
  forall s1 s2 : list Z,
    Permutation s1 s2 -> compute_entropy s1 = compute_entropy s2.
Proof.
  intros s1 s2 H. unfold compute_entropy.
  now rewrite (unique_counts_permutation s1 s2 H).
Qed.

Lemma compute_entropy_permutation_invariant_witness :
  compute_entropy [3; 1; 2; 1]%Z = compute_entropy [1; 1; 2; 3]%Z.
Proof.
  apply compute_entropy_permutation_invariant.
  apply Permutation_trans with [1; 3; 2; 1]%Z; [apply perm_swap |].
  apply perm_skip.
  apply Permutation_trans with [1; 3; 2]%Z.
  - apply Permutation_sym. apply (Permutation_cons_append [3; 2]%Z 1%Z).
  - apply perm_skip. apply perm_swap.
Defined.

Lemma counts_total_equal_counts (m : nat) (l : list (Z * nat)) :
  Forall (fun vc => snd vc = m) l -> counts_total l = (length l * m)%nat.
Proof.
  unfold counts_total. induction 1 as [| vc l Hvc _ IH]; [reflexivity |].
  cbn [map fold_right length]. rewrite IH, Hvc. lia.
Qed.

Lemma map_const_repeat {A B : Type} (c : B) (l : list A) :
  map (fun _ => c) l = repeat c (length l).
Proof. symmetry. apply repeat_as_map. Qed.

(** X26.  When every distinct symbol of a non-empty sequence of int64 symbols
    occurs equally often, the entropy is [log2] of the number of distinct
    symbols. *)
Theorem compute_entropy_of_equally_frequent_symbols :
  forall (seq : list Z) (m : nat),
    Forall int64_symbol seq -> seq <> [] ->
    Forall (fun vc => snd vc = m) (unique_counts seq) ->
    compute_entropy seq = Fin (ln (INR (length (unique_counts seq))) / ln 2).
Proof.
  intros seq m _ Hne Hm.
  pose proof (proj2 (unique_counts_length seq) Hne) as Hk.
  pose proof (counts_total_equal_counts m _ Hm) as Ht.
  rewrite unique_counts_total in Ht.
  assert (Hm0 : (0 < m)%nat).
  { destruct m; [| lia]. rewrite Nat.mul_0_r in Ht.
    destruct seq; [congruence | discriminate]. }
  set (k := length (unique_counts seq)) in *.
  assert (Hk' : 0 < INR k) by (now apply lt_0_INR).
  assert (Hm' : 0 < INR m) by (now apply lt_0_INR).
  assert (F : frequencies seq = repeat (1 / INR k) k).
  { unfold frequencies. rewrite (map_ext_in _ (fun _ => 1 / INR k)).
    - apply map_const_repeat.
    - intros vc Hvc. rewrite (proj1 (Forall_forall _ _) Hm vc Hvc).
      rewrite Ht, mult_INR. field. split; lra. }
  rewrite compute_entropy_as_bits, compute_entropy_bits_reals, F by assumption.
  rewrite positive_entries_all.
  - f_equal. now apply shannon_bits_uniform.
  - apply Forall_forall. intros p Hp. apply repeat_spec in Hp. subst p.
    apply Rdiv_lt_0_compat; lra.
Qed.

Lemma compute_entropy_of_equally_frequent_symbols_witness :
  compute_entropy [0; 1; 1; 0]%Z
  = Fin (ln (INR (length (unique_counts [0; 1; 1; 0]%Z))) / ln 2).
Proof.
  apply (compute_entropy_of_equally_frequent_symbols [0; 1; 1; 0]%Z 2).
  - repeat constructor; unfold int64_symbol; lia.
  - discriminate.
  - repeat constructor.
Defined.

(* ================================================================= *)
(** ** The entropy-rate scaling ansatz *)

Lemma fpower_one (gamma : float64) : fpower (Fin 1) gamma = Fin 1.
Proof.
  destruct gamma as [b | | |]; cbn [fpower].
  - destruct (Rsign b); try reflexivity;
      rewrite Rsign_pos by lra; f_equal; unfold Rpower;
      rewrite ln_1, Rmult_0_r; apply exp_0.
  - unfold Rabs_vs_one. rewrite Rabs_R1.
    replace (1 - 1) with 0 by ring. now rewrite Rsign_zero.
  - unfold Rabs_vs_one. rewrite Rabs_R1.
    replace (1 - 1) with 0 by ring. now rewrite Rsign_zero.
  - destruct (Req_dec_T 1 1); [reflexivity | congruence].
Qed.


(** X27.  At [N = 1] the ansatz returns [h_inf] itself, for every exponent
    [gamma] and every [c] other than zero and [nan]; with [c = 0] it returns
    [nan]. *)
Theorem ansatz_at_length_one :
  forall (h_inf gamma c : float64),
    (c <> Fin 0 -> c <> NaN ->
     entropy_rate_scaling_ansatz (Fin 1) h_inf gamma c = h_inf)
    /\ entropy_rate_scaling_ansatz (Fin 1) h_inf gamma (Fin 0) = NaN.
Proof.
  intros h_inf gamma c. unfold entropy_rate_scaling_ansatz.
  rewrite fpower_one, flog2_fin, Rlog2_1 by lra.
  rewrite (fdiv_fin 0 1) by lra. replace (0 / 1) with 0 by (unfold Rdiv; ring).
  assert (Z : forall h, fadd h (Fin 0) = h).
  { intros [a | | |]; cbn [fadd]; try reflexivity. f_equal. ring. }
  split.
  - intros H0 Hn. destruct c as [x | | |]; cbn [fabs]; try congruence.
    + assert (Hx : x <> 0) by (intros ->; now apply H0).
      rewrite fdiv_fin by (now apply Rabs_no_R0).
      replace (0 / Rabs x) with 0 by (unfold Rdiv; ring). apply Z.
    + cbn [fdiv]. apply Z.
    + cbn [fdiv]. apply Z.
  - cbn [fabs fdiv]. rewrite Rabs_R0, !Rsign_zero. cbn [inf_of].
    destruct h_inf; reflexivity.
Qed.

Lemma ansatz_at_length_one_witness :
  entropy_rate_scaling_ansatz (Fin 1) (Fin 0.7) (Fin 0.5) (Fin (-2)) = Fin 0.7.
Proof.
  apply (proj1 (ansatz_at_length_one (Fin 0.7) (Fin 0.5) (Fin (-2)))).
  - intros H. injection H. lra.
  - discriminate.
Defined.


